(** * The Floor Game: the game-state engine of [the_floor_game/core.py]

    A shallow embedding of the classes [Category], [Player], [Duel], [Board]
    and [Game], and of the colour function of [the_floor_game/web.py],
    followed by the properties of the engine.

    Python objects are shared by reference: the [Player] objects handed to
    [Game.__init__] are the very objects stored in [Game.players] and inside
    every [Duel].  The embedding therefore keeps one store of [Player]
    objects (a list, a reference being an index into it).  The store holds
    every [Player] object of the program: those of the game and any other
    the caller has built, a copy of a player for instance; an object the
    caller builds later is an object of the store that no call touches
    before.  The list handed to the constructor, the dictionary [players]
    and the duels hold references, so one object may occur twice in the
    constructor's list.  The list of positions is a field of its player
    object: the constructor gives every listed player a list of its own and
    no call makes two players share one.

    A [Duel] object is either an entry of [duel_history], identified by its
    index there, or a duel built outside [Game.challenge], by the class
    constructor or by [copy.deepcopy]; the latter are kept in a store of
    their own.  The classes are dataclasses, so [==] and the [in] of
    [resolve_duel] compare field by field, not by identity. *)

From stdpp Require Import base list gmap strings pretty.
From Stdlib Require Import ZArith Lia.

(** ** Exceptions

    core.py raises [ValueError] and [KeyError]; the constructors below name
    the [raise] sites by the failure each one signals:
    - [InvalidDimension]: "nrows and ncols must be positive" ([Board.__init__]);
    - [CardinalityMismatch]: "number of players must equal nrows*ncols"
      ([Game.__init__]) and "players list length must equal board capacity"
      ([Board.place_players]);
    - [UnknownPlayer]: the [KeyError] of [set_player_expertise] and [challenge];
    - [SelfChallenge]: "player cannot challenge themself";
    - [NoExpertiseSet]: "challenged player must have an expertise/category set";
    - [UnknownDuel]: "duel not found in game history";
    - [InvalidWinner]: "winner_id must be one of the duel participants";
    - [StopIteration]: what [next(it)] raises on an exhausted iterator.
    [OutOfRange] is the failure the board interface names for a cell lookup;
    no statement of core.py raises it. *)

Inductive Error :=
  | InvalidDimension
  | CardinalityMismatch
  | UnknownPlayer
  | SelfChallenge
  | NoExpertiseSet
  | UnknownDuel
  | InvalidWinner
  | StopIteration
  | OutOfRange.

Inductive Res (A : Type) :=
  | Ok (a : A)
  | Err (e : Error).
Arguments Ok {A} a.
Arguments Err {A} e.

(** ** Python dictionaries with integer keys

    Insertion ordered: assigning to a key that is present replaces its value
    in place, a new key goes to the end. *)

Section dict.
Context {V : Type}.

Fixpoint dict_set (d : list (Z * V)) (k : Z) (v : V) : list (Z * V) :=
  match d with
  | [] => [(k, v)]
  | (k', v') :: d' =>
      if decide (k' = k) then (k, v) :: d' else (k', v') :: dict_set d' k v
  end.

Fixpoint dict_get (d : list (Z * V)) (k : Z) : option V :=
  match d with
  | [] => None
  | (k', v') :: d' => if decide (k' = k) then Some v' else dict_get d' k
  end.

Definition dict_values (d : list (Z * V)) : list V := d.*2.
End dict.

(** [random.choice(seq)] on a non-empty sequence [x :: xs]: the element at
    the index drawn below [len(seq)]; [draw] is the raw random number. *)
Definition random_choice {A : Type} (draw : nat) (x : A) (xs : list A) : A :=
  nth (draw mod S (length xs)) (x :: xs) x.

(** ** Category *)

Module Category.
Record t := mk { name : string; description : option string }.

(** The [__eq__] of the dataclass: equality of the fields. *)
#[global] Instance category_eq_dec : EqDecision t := ltac:(solve_decision).
End Category.

(** ** Player *)

Module Player.
Record t := mk {
  id : Z;
  name : string;
  expertise : option Category.t;
  positions : list (Z * Z);
  eliminated : bool
}.

(** The [__eq__] of the dataclass: equality of the fields. *)
#[global] Instance player_eq_dec : EqDecision t := ltac:(solve_decision).

Definition with_expertise (e : option Category.t) (p : t) : t :=
  mk (id p) (name p) e (positions p) (eliminated p).
Definition with_positions (ps : list (Z * Z)) (p : t) : t :=
  mk (id p) (name p) (expertise p) ps (eliminated p).
Definition with_eliminated (b : bool) (p : t) : t :=
  mk (id p) (name p) (expertise p) (positions p) b.

Definition choose_expertise (category : Category.t) (p : t) : t :=
  with_expertise (Some category) p.

Definition primary_position (p : t) : option (Z * Z) :=
  match positions p with
  | [] => None
  | pos :: _ => Some pos
  end.

(** [positions.append(pos)] *)
Definition append_position (pos : Z * Z) (p : t) : t :=
  with_positions (positions p ++ [pos]) p.
End Player.

(** The store of player objects.  The references a program holds are in
    range; [blank] is what the model reads through any other. *)
Definition blank : Player.t := Player.mk 0 String.EmptyString None [] false.
Definition deref (h : list Player.t) (r : nat) : Player.t :=
  default blank (h !! r).

(** ** Duel *)

Module Duel.
Record t := mk {
  challenger : nat;
  challenged : nat;
  category : Category.t;
  winner_id : option Z
}.

Definition with_winner_id (w : option Z) (d : t) : t :=
  mk (challenger d) (challenged d) (category d) w.

(** What the [__eq__] generated for the dataclass compares: the tuple of
    the four fields, the two players by their own fields. *)
Definition fields (h : list Player.t) (d : t)
    : Player.t * Player.t * Category.t * option Z :=
  (deref h (challenger d), deref h (challenged d), category d, winner_id d).

Definition __eq__ (h : list Player.t) (d other : t) : bool :=
  bool_decide (fields h d = fields h other).

(** [resolve]: the duel after the call, and whether the call raised. *)
Definition resolve (h : list Player.t) (winner_id : Z) (d : t) : Res unit * t :=
  if decide (winner_id ≠ Player.id (deref h (challenger d)) ∧
             winner_id ≠ Player.id (deref h (challenged d)))
  then (Err InvalidWinner, d)
  else (Ok tt, with_winner_id (Some winner_id) d).

Definition loser (h : list Player.t) (d : t) : nat :=
  if decide (winner_id d = Some (Player.id (deref h (challenger d))))
  then challenged d else challenger d.

Definition winner (h : list Player.t) (d : t) : option nat :=
  match winner_id d with
  | None => None
  | Some w =>
      Some (if decide (w = Player.id (deref h (challenger d)))
            then challenger d else challenged d)
  end.
End Duel.

(** A reference to a [Duel] object: the i-th entry of [duel_history], or
    the k-th of the duels built outside [Game.challenge]. *)
Inductive duel_ref :=
  | Entry (i : nat)
  | Outside (k : nat).

(** ** Board *)

Module Board.
Record t := mk {
  nrows : Z;
  ncols : Z;
  _grid : gmap (Z * Z) (option Z)
}.

Definition with_grid (m : gmap (Z * Z) (option Z)) (b : t) : t :=
  mk (nrows b) (ncols b) m.

(** [(r, c) for r in range(nrows) for c in range(ncols)] *)
Definition cells (nrows ncols : Z) : list (Z * Z) :=
  seqZ 0 nrows ≫= λ r, pair r <$> seqZ 0 ncols.

Definition init (nrows ncols : Z) : Res t :=
  if decide (nrows ≤ 0 ∨ ncols ≤ 0)%Z then Err InvalidDimension
  else Ok (mk nrows ncols (list_to_map ((λ c, (c, None)) <$> cells nrows ncols))).

Definition capacity (b : t) : Z := (nrows b * ncols b)%Z.

(** State of the two nested loops of [place_players]: the outcome so far,
    the grid, the player objects and the position of the iterator [it]. *)
Definition place_step (players : list nat)
    (st : Res unit * gmap (Z * Z) (option Z) * list Player.t * nat)
    (cell : Z * Z) : Res unit * gmap (Z * Z) (option Z) * list Player.t * nat :=
  match st with
  | (Err e, grid, h, it) => (Err e, grid, h, it)
  | (Ok _, grid, h, it) =>
      match players !! it with
      | None => (Err StopIteration, grid, h, it)
      | Some player =>
          (Ok tt,
           <[cell := Some (Player.id (deref h player))]> grid,
           alter (Player.with_positions [cell]) player h,
           S it)
      end
  end.

Definition place_players (players : list nat) (b : t) (h : list Player.t)
    : Res unit * t * list Player.t :=
  if decide (Z.of_nat (length players) ≠ capacity b) then (Err CardinalityMismatch, b, h)
  else
    match foldl (place_step players) (Ok tt, _grid b, h, 0) (cells (nrows b) (ncols b)) with
    | (res, grid, h', _) => (res, with_grid grid b, h')
    end.

Definition get_player_position (h : list Player.t) (player : nat) : option (Z * Z) :=
  Player.primary_position (deref h player).

(** [self._grid.get((row, col))]: [dict.get] never raises. *)
Definition get_player_at (b : t) (row col : Z) : Res (option Z) :=
  Ok (default None (_grid b !! (row, col))).
End Board.

(** ** Game

    The last two fields are not attributes of the Python object: [heap] is
    the store of [Player] objects and [others] the store of the [Duel]
    objects that are not entries of [duel_history]. *)

Module Game.
Record t := mk {
  players : list (Z * nat);
  board : Board.t;
  nrows : Z;
  ncols : Z;
  duel_history : list Duel.t;
  over : bool;
  winner_id : option Z;
  turn_challenger_id : option Z;
  heap : list Player.t;
  others : list Duel.t
}.

Definition with_heap (h : list Player.t) (g : t) : t :=
  mk (players g) (board g) (nrows g) (ncols g) (duel_history g) (over g)
     (winner_id g) (turn_challenger_id g) h (others g).
Definition with_board (b : Board.t) (g : t) : t :=
  mk (players g) b (nrows g) (ncols g) (duel_history g) (over g)
     (winner_id g) (turn_challenger_id g) (heap g) (others g).
Definition with_duel_history (ds : list Duel.t) (g : t) : t :=
  mk (players g) (board g) (nrows g) (ncols g) ds (over g)
     (winner_id g) (turn_challenger_id g) (heap g) (others g).
Definition with_over (o : bool) (w : option Z) (g : t) : t :=
  mk (players g) (board g) (nrows g) (ncols g) (duel_history g) o
     w (turn_challenger_id g) (heap g) (others g).
Definition with_turn_challenger_id (c : option Z) (g : t) : t :=
  mk (players g) (board g) (nrows g) (ncols g) (duel_history g) (over g)
     (winner_id g) c (heap g) (others g).
Definition with_others (ds : list Duel.t) (g : t) : t :=
  mk (players g) (board g) (nrows g) (ncols g) (duel_history g) (over g)
     (winner_id g) (turn_challenger_id g) (heap g) ds.

(** Reading and writing a [Duel] object through a reference. *)
Definition get_duel (g : t) (duel : duel_ref) : option Duel.t :=
  match duel with
  | Entry i => duel_history g !! i
  | Outside k => others g !! k
  end.

Definition set_duel (duel : duel_ref) (d : Duel.t) (g : t) : t :=
  match duel with
  | Entry i => with_duel_history (<[i := d]> (duel_history g)) g
  | Outside k => with_others (<[k := d]> (others g)) g
  end.

(** [{p.id: p for p in players}] *)
Fixpoint register (h : list Player.t) (ps : list nat) (d : list (Z * nat))
    : list (Z * nat) :=
  match ps with
  | [] => d
  | p :: ps' => register h ps' (dict_set d (Player.id (deref h p)) p)
  end.

(** [Game(players, nrows, ncols)], on the store [h].  The second component
    is the store after the call, whether it raised or not. *)
Definition init (ps : list nat) (nrows ncols : Z) (h : list Player.t)
    : Res t * list Player.t :=
  if decide (Z.of_nat (length ps) ≠ nrows * ncols)%Z then (Err CardinalityMismatch, h)
  else
    let players := register h ps [] in
    match Board.init nrows ncols with
    | Err e => (Err e, h)
    | Ok b =>
        match Board.place_players ps b h with
        | (Err e, _, h') => (Err e, h')
        | (Ok _, b', h') => (Ok (mk players b' nrows ncols [] false None None h' []), h')
        end
    end.

Definition set_player_expertise (player_id : Z) (category : Category.t) (g : t)
    : Res unit * t :=
  match dict_get (players g) player_id with
  | None => (Err UnknownPlayer, g)
  | Some player =>
      (Ok tt, with_heap (alter (Player.choose_expertise category) player (heap g)) g)
  end.

(** The result is the new duel, the last entry of the history. *)
Definition challenge (challenger_id challenged_id : Z) (g : t) : Res duel_ref * t :=
  if decide (challenger_id = challenged_id) then (Err SelfChallenge, g)
  else
    match dict_get (players g) challenger_id, dict_get (players g) challenged_id with
    | Some challenger, Some challenged =>
        match Player.expertise (deref (heap g) challenged) with
        | None => (Err NoExpertiseSet, g)
        | Some category =>
            let duel := Duel.mk challenger challenged category None in
            (Ok (Entry (length (duel_history g))),
             with_duel_history (duel_history g ++ [duel]) g)
        end
    | _, _ => (Err UnknownPlayer, g)
    end.

(** [p for p in self.players.values() if not p.eliminated] *)
Definition alive_players (g : t) : list nat :=
  filter (λ r, Player.eliminated (deref (heap g) r) = false) (dict_values (players g)).

(** The loop [for pos in list(loser.positions)] of [resolve_duel]. *)
Definition transfer_step (winner : nat)
    (st : gmap (Z * Z) (option Z) * list Player.t) (pos : Z * Z)
    : gmap (Z * Z) (option Z) * list Player.t :=
  (<[pos := Some (Player.id (deref st.2 winner))]> st.1,
   alter (Player.append_position pos) winner st.2).

(** The final check of [resolve_duel]. *)
Definition check_over (g : t) : t :=
  match alive_players g with
  | [a] =>
      if decide (Z.of_nat (length (Player.positions (deref (heap g) a)))
                 = Board.capacity (board g))
      then with_over true (Some (Player.id (deref (heap g) a))) g
      else g
  | _ => g
  end.

(** [duel in self.duel_history]: some entry [x] of the list has
    [x == duel]; an entry is equal to itself. *)
Definition in_history (g : t) (d : Duel.t) : bool :=
  existsb (λ x, Duel.__eq__ (heap g) x d) (duel_history g).

(** A reference to no object at all cannot be written in Python; the model
    answers it like a duel that is not in the history. *)
Definition resolve_duel (duel : duel_ref) (winner_id : Z) (g : t) : Res unit * t :=
  match get_duel g duel with
  | None => (Err UnknownDuel, g)
  | Some d =>
      if negb (in_history g d) then (Err UnknownDuel, g)
      else
        match Duel.resolve (heap g) winner_id d with
        | (Err e, d') => (Err e, set_duel duel d' g)
        | (Ok _, d') =>
            let g1 := set_duel duel d' g in
            let '(winner, loser) :=
              if decide (Duel.winner_id d'
                         = Some (Player.id (deref (heap g1) (Duel.challenger d'))))
              then (Duel.challenger d', Duel.challenged d')
              else (Duel.challenged d', Duel.challenger d') in
            let '(grid, h2) :=
              foldl (transfer_step winner) (Board._grid (board g1), heap g1)
                    (Player.positions (deref (heap g1) loser)) in
            let h3 :=
              alter (Player.with_expertise
                       (Player.expertise (deref h2 (Duel.challenger d')))) winner h2 in
            let h4 := alter (Player.with_positions []) loser h3 in
            let h5 := alter (Player.with_eliminated true) loser h4 in
            (Ok tt,
             check_over (with_heap h5 (with_board (Board.with_grid grid (board g1)) g1)))
        end
  end.

Definition start_turn (draw : nat) (g : t) : option Z * t :=
  match alive_players g with
  | [] => (None, with_turn_challenger_id None g)
  | a :: alive =>
      let chosen :=
        match filter (λ r, length (Player.positions (deref (heap g) r)) = 1)
                     (a :: alive) with
        | o :: ones => random_choice draw o ones
        | [] => random_choice draw a alive
        end in
      let i := Player.id (deref (heap g) chosen) in
      (Some i, with_turn_challenger_id (Some i) g)
  end.
End Game.

(** ** Sequences of calls on a game

    The four calls of the engine, and [Duel(challenger, challenged,
    category, winner_id)], by which the caller builds a duel of its own. *)

Inductive Call :=
  | SetPlayerExpertise (player_id : Z) (category : Category.t)
  | Challenge (challenger_id challenged_id : Z)
  | ResolveDuel (duel : duel_ref) (winner_id : Z)
  | StartTurn (draw : nat)
  | NewDuel (d : Duel.t).

(** The game after a call, whether the call raised or not. *)
Definition exec (g : Game.t) (c : Call) : Game.t :=
  match c with
  | SetPlayerExpertise i cat => (Game.set_player_expertise i cat g).2
  | Challenge a b => (Game.challenge a b g).2
  | ResolveDuel d w => (Game.resolve_duel d w g).2
  | StartTurn k => (Game.start_turn k g).2
  | NewDuel d => Game.with_others (Game.others g ++ [d]) g
  end.

Definition run (g : Game.t) (cs : list Call) : Game.t := foldl exec g cs.

(** ** The colour of a player ([web.py])

    [_color_for_id] returns a dictionary with the keys "bg", "border" and
    "text"; an f-string prints the integer [hue] in decimal. *)

Module Web.
Record colors := mk_colors { bg : string; border : string; text : string }.

Definition _color_for_id (pid : Z) : colors :=
  let hue := ((pid * 73) mod 360)%Z in
  let bg := "hsl(" +:+ pretty hue +:+ ",70%,85%)" in
  let border := "hsl(" +:+ pretty hue +:+ ",70%,60%)" in
  let text := "#111" in
  mk_colors bg border text.
End Web.

(** * Vocabulary of the properties

    Nothing below is executed by the engine: these are the states, steps
    and invariants the theorems speak about, and the sample games used to
    exercise them. *)

(** The game after the ownership transfer of a resolved duel: the object
    behind [r], with the fields [d], won by the player at [W] against the
    player at [L]; before the final check. *)
Definition moved (g : Game.t) (r : duel_ref) (w : Z) (d : Duel.t) (W L : nat) : Game.t :=
  let g1 := Game.set_duel r (Duel.with_winner_id (Some w) d) g in
  Game.mk (Game.players g)
    (Board.mk (Board.nrows (Game.board g)) (Board.ncols (Game.board g))
       (foldl (λ m pos, <[pos := Some (Player.id (deref (Game.heap g) W))]> m)
              (Board._grid (Game.board g))
              (Player.positions (deref (Game.heap g) L))))
    (Game.nrows g) (Game.ncols g)
    (Game.duel_history g1)
    (Game.over g) (Game.winner_id g) (Game.turn_challenger_id g)
    (alter (Player.with_eliminated true ∘ Player.with_positions []) L
       (alter (Player.with_expertise
                 (Player.expertise (deref (Game.heap g) (Duel.challenger d)))
               ∘ (λ p, Player.with_positions
                         (Player.positions p
                          ++ Player.positions (deref (Game.heap g) L)) p))
              W (Game.heap g)))
    (Game.others g1).

(** What a call can do to a game: nothing (it raised), or one of five
    updates. *)
Inductive step (g : Game.t) : Game.t → Prop :=
  | step_none : step g g
  | step_expertise i r cat :
      dict_get (Game.players g) i = Some r →
      step g (Game.with_heap (alter (Player.choose_expertise cat) r (Game.heap g)) g)
  | step_challenge a b ca cb cat :
      a ≠ b →
      dict_get (Game.players g) a = Some ca →
      dict_get (Game.players g) b = Some cb →
      Player.expertise (deref (Game.heap g) cb) = Some cat →
      step g (Game.with_duel_history
                (Game.duel_history g ++ [Duel.mk ca cb cat None]) g)
  | step_resolve r w d W L :
      Game.get_duel g r = Some d →
      Game.in_history g d = true →
      (W = Duel.challenger d ∧ L = Duel.challenged d)
      ∨ (W = Duel.challenged d ∧ L = Duel.challenger d) →
      w = Player.id (deref (Game.heap g) W) →
      step g (Game.check_over (moved g r w d W L))
  | step_turn x : step g (Game.with_turn_challenger_id x g)
  | step_new_duel d : step g (Game.with_others (Game.others g ++ [d]) g).

(** The participants of a duel are registered under two different ids. *)
Definition duel_ok (players : list (Z * nat)) (d : Duel.t) : Prop :=
  ∃ ka kb, ka ≠ kb ∧ (ka, Duel.challenger d) ∈ players
           ∧ (kb, Duel.challenged d) ∈ players.

(** The registry is sound: the keys of [players] are distinct, a key leads
    to a player carrying that id, and the participants of every duel of the
    history are registered. *)
Record wf (g : Game.t) : Prop := mk_wf {
  wf_keys : NoDup (Game.players g).*1;
  wf_refs : ∀ k r, (k, r) ∈ Game.players g → Player.id (deref (Game.heap g) r) = k;
  wf_duels : Forall (duel_ok (Game.players g)) (Game.duel_history g)
}.

(** The registered players are objects of the store. *)
Definition live (g : Game.t) : Prop :=
  ∀ x, x ∈ dict_values (Game.players g) → x < length (Game.heap g).

(** [x] is a registered player and owns the cell [c]. *)
Definition owner (g : Game.t) (x : nat) (c : Z * Z) : Prop :=
  x ∈ dict_values (Game.players g) ∧ c ∈ Player.positions (deref (Game.heap g) x).

(** The cells are dealt out: the position lists of the registered players
    put end to end are a rearrangement of the cells of the board, the grid
    names the owner of every owned cell and has no entry outside the
    board. *)
Record part (g : Game.t) : Prop := mk_part {
  part_perm :
    mjoin ((λ x, Player.positions (deref (Game.heap g) x))
             <$> dict_values (Game.players g))
    ≡ₚ Board.cells (Board.nrows (Game.board g)) (Board.ncols (Game.board g));
  part_grid : ∀ x c, owner g x c →
    Board._grid (Game.board g) !! c = Some (Some (Player.id (deref (Game.heap g) x)));
  part_dom : ∀ c,
    c ∉ Board.cells (Board.nrows (Game.board g)) (Board.ncols (Game.board g)) →
    Board._grid (Game.board g) !! c = None
}.

(** The partition property of a game on an [nrows] by [ncols] board: the
    cells of the board are the owned cells, a cell has one owner, no player
    lists a cell twice, and the grid entry of an owned cell is its owner's
    id. *)
Definition partitioned (nrows ncols : Z) (g : Game.t) : Prop :=
  (∀ r c, (0 ≤ r < nrows ∧ 0 ≤ c < ncols)%Z ↔ ∃ x, owner g x (r, c))
  ∧ (∀ x y c, owner g x c → owner g y c → x = y)
  ∧ (∀ x, x ∈ dict_values (Game.players g) →
          NoDup (Player.positions (deref (Game.heap g) x)))
  ∧ (∀ x c, owner g x c →
            Board._grid (Game.board g) !! c
            = Some (Some (Player.id (deref (Game.heap g) x)))).

(** The grid stays within the board: no entry outside, every cell inside
    carries the id of a registered player, and the registered players list
    cells of the board only. *)
Record bounded (g : Game.t) : Prop := mk_bounded {
  bounded_dom : ∀ c,
    c ∉ Board.cells (Board.nrows (Game.board g)) (Board.ncols (Game.board g)) →
    Board._grid (Game.board g) !! c = None;
  bounded_in : ∀ c,
    c ∈ Board.cells (Board.nrows (Game.board g)) (Board.ncols (Game.board g)) →
    ∃ k, Board._grid (Game.board g) !! c = Some (Some k)
         ∧ is_Some (dict_get (Game.players g) k);
  bounded_pos : ∀ x c, owner g x c →
    c ∈ Board.cells (Board.nrows (Game.board g)) (Board.ncols (Game.board g))
}.

(** A registered player without cells is eliminated. *)
Definition owns (g : Game.t) : Prop :=
  ∀ x, x ∈ dict_values (Game.players g) →
       Player.positions (deref (Game.heap g) x) = [] →
       Player.eliminated (deref (Game.heap g) x) = true.

(** An eliminated registered player has no cells. *)
Definition cleared (g : Game.t) : Prop :=
  ∀ x, x ∈ dict_values (Game.players g) →
       Player.eliminated (deref (Game.heap g) x) = true →
       Player.positions (deref (Game.heap g) x) = [].

(** The player registered under [w], if any, is not eliminated. *)
Definition alive_id (g : Game.t) (w : Z) : bool :=
  match dict_get (Game.players g) w with
  | Some r => negb (Player.eliminated (deref (Game.heap g) r))
  | None => true
  end.

(** A sequence of calls in which no duel is resolved in favour of a player
    who is eliminated when the call is made. *)
Definition fair_call (g : Game.t) (c : Call) : bool :=
  match c with
  | ResolveDuel _ w => alive_id g w
  | _ => true
  end.

Fixpoint fair (g : Game.t) (cs : list Call) : bool :=
  match cs with
  | [] => true
  | c :: cs' => fair_call g c && fair (exec g c) cs'
  end.

(** The two players of a duel are [Player] objects of the game.  Those of
    an entry of the history always are; a duel built by the caller may name
    any two objects of the store. *)
Definition own_duel (g : Game.t) (r : duel_ref) : bool :=
  match r with
  | Entry _ => true
  | Outside k =>
      match Game.others g !! k with
      | Some d =>
          bool_decide (Duel.challenger d ∈ dict_values (Game.players g))
          && bool_decide (Duel.challenged d ∈ dict_values (Game.players g))
      | None => true
      end
  end.

(** A sequence of calls in which every duel handed to [resolve_duel] is
    between [Player] objects of the game. *)
Definition own_call (g : Game.t) (c : Call) : bool :=
  match c with
  | ResolveDuel r _ => own_duel g r
  | _ => true
  end.

Fixpoint own (g : Game.t) (cs : list Call) : bool :=
  match cs with
  | [] => true
  | c :: cs' => own_call g c && own (exec g c) cs'
  end.

(** [a] is the only player who is not eliminated and owns as many cells as
    the board has: the condition tested at the end of [resolve_duel]. *)
Definition sole_owner (g : Game.t) (a : nat) : Prop :=
  Game.alive_players g = [a]
  ∧ Z.of_nat (length (Player.positions (deref (Game.heap g) a)))
    = Board.capacity (Game.board g).

Definition over_complete (g : Game.t) : Prop :=
  ∀ a, sole_owner g a →
  Game.over g = true ∧ Game.winner_id g = Some (Player.id (deref (Game.heap g) a)).



(** The ids of the players in the constructor's list. *)
Definition ids (h : list Player.t) (ps : list nat) : list Z :=
  (λ r, Player.id (deref h r)) <$> ps.

(** Sample games. *)
Definition sci : Category.t := Category.mk "Science" None.
Definition hist : Category.t := Category.mk "History" None.
Definition alice : Player.t := Player.mk 1 "Alice" None [] false.
Definition bob : Player.t := Player.mk 2 "Bob" None [] false.
Definition carol : Player.t := Player.mk 3 "Carol" None [] false.

(** Alice challenges Bob on Science and Bob wins. *)
Definition first_duel : list Call :=
  [SetPlayerExpertise 2 sci; Challenge 1 2; ResolveDuel (Entry 0) 2].

(** The same duel, resolved a second time for Alice. *)
Definition resolved_twice : list Call :=
  [SetPlayerExpertise 2 sci; Challenge 1 2; ResolveDuel (Entry 0) 2;
   ResolveDuel (Entry 0) 1].

(** Alice loses to Bob, then challenges Carol and wins. *)
Definition eliminated_challenges : list Call :=
  [SetPlayerExpertise 2 sci; Challenge 1 2; ResolveDuel (Entry 0) 2;
   SetPlayerExpertise 3 hist; Challenge 1 3; ResolveDuel (Entry 1) 1].


(** What [copy.deepcopy] makes of the duel between Alice and Bob on the
    1 x 2 board, once Bob has declared Science and Alice has challenged him:
    a copy of Alice on her cell, a copy of Bob on his, and a duel between
    the two copies.  In the store [alice; bob; alice_copy; bob_copy] the
    copies have the references 2 and 3. *)
Definition alice_copy : Player.t := Player.mk 1 "Alice" None [(0, 0)%Z] false.
Definition bob_copy : Player.t := Player.mk 2 "Bob" (Some sci) [(0, 1)%Z] false.

(** Alice challenges Bob; the copy of the duel is resolved for Bob. *)
Definition copied_duel : list Call :=
  [SetPlayerExpertise 2 sci; Challenge 1 2;
   NewDuel (Duel.mk 2 3 sci None); ResolveDuel (Outside 0) 2].

(** * Properties of the engine *)

(** ** Lists, dictionaries and the cells of a board *)

Section list_facts.
Context {A B : Type}.

Lemma fmap_alter_same (g : A → B) (f : A → A) (i : nat) (l : list A) :
  (∀ x, g (f x) = g x) → g <$> alter f i l = g <$> l.
Proof.
  intros Hg. apply list_eq; intros j.
  rewrite !list_lookup_fmap, list_lookup_alter.
  case_decide; subst; [|done].
  destruct (l !! j); simpl; by rewrite ?Hg.
Qed.

Lemma alter_as_insert (f : A → A) (i : nat) (l : list A) (x : A) :
  l !! i = Some x → alter f i l = <[i := f x]> l.
Proof.
  intros Hx. apply list_eq; intros j.
  rewrite list_lookup_alter, list_lookup_insert.
  apply lookup_lt_Some in Hx as Hlt.
  repeat case_decide; subst; try done; try lia; try tauto. by rewrite Hx.
Qed.

Lemma foldl_insert_notin `{Countable K} (f : K → B) (m : gmap K B) (l : list K) (k : K) :
  k ∉ l → foldl (λ m x, <[x := f x]> m) m l !! k = m !! k.
Proof.
  revert m. induction l as [|x l IH]; intros m Hk; [done|].
  apply not_elem_of_cons in Hk as [Hne Hk]. simpl.
  rewrite IH by done. by rewrite lookup_insert_ne.
Qed.

Lemma foldl_insert_in `{Countable K} (f : K → B) (m : gmap K B) (l : list K) (k : K) :
  k ∈ l → foldl (λ m x, <[x := f x]> m) m l !! k = Some (f k).
Proof.
  revert m. induction l as [|x l IH]; intros m Hk; [by apply elem_of_nil in Hk|].
  simpl. destruct (decide (k ∈ l)) as [Hin|Hnin]; [by apply IH|].
  apply elem_of_cons in Hk as [->|?]; [|done].
  rewrite foldl_insert_notin by done. by rewrite lookup_insert_eq.
Qed.
End list_facts.

Section dict_facts.
Context {V : Type}.
Implicit Types (d : list (Z * V)) (k : Z) (v : V).

Lemma dict_get_Some_elem d k v : dict_get d k = Some v → (k, v) ∈ d.
Proof.
  induction d as [|[k' v'] d IH]; simpl; [done|].
  case_decide; subst.
  - intros [= ->]. apply list_elem_of_here.
  - intros. apply list_elem_of_further. auto.
Qed.

Lemma dict_get_None d k : dict_get d k = None ↔ k ∉ d.*1.
Proof.
  induction d as [|[k' v'] d IH]; csimpl.
  - split; [intros _; apply not_elem_of_nil|done].
  - rewrite not_elem_of_cons. destruct (decide (k' = k)) as [->|Hne].
    + split; [done|]. intros [? _]. done.
    + rewrite IH. split; [by split|by intros []].
Qed.

Lemma dict_get_elem d k v : NoDup d.*1 → (k, v) ∈ d → dict_get d k = Some v.
Proof.
  induction d as [|[k' v'] d IH]; csimpl; intros Hnd Hin.
  - by apply elem_of_nil in Hin.
  - apply NoDup_cons in Hnd as [Hk' Hnd].
    apply elem_of_cons in Hin as [[= -> ->]|Hin].
    + by rewrite decide_True.
    + destruct (decide (k' = k)) as [->|Hne]; [|by apply IH].
      destruct Hk'. change k with ((k, v).1). by apply list_elem_of_fmap_2.
Qed.

Lemma dict_set_fresh d k v : k ∉ d.*1 → dict_set d k v = d ++ [(k, v)].
Proof.
  induction d as [|[k' v'] d IH]; csimpl; [done|].
  rewrite not_elem_of_cons. intros [Hne Hk].
  rewrite decide_False by done. by rewrite IH.
Qed.

Lemma dict_set_keys d k v :
  (dict_set d k v).*1 = if decide (k ∈ d.*1) then d.*1 else d.*1 ++ [k].
Proof.
  induction d as [|[k' v'] d IH]; csimpl; [done|].
  destruct (decide (k' = k)) as [->|Hne]; csimpl.
  -
    rewrite decide_True; [done|apply list_elem_of_here].
  - rewrite IH. destruct (decide (k ∈ d.*1)).
    + rewrite decide_True; [done|by apply list_elem_of_further].
    + rewrite decide_False; [done|]. rewrite not_elem_of_cons. split; [congruence|done].
Qed.

Lemma dict_set_NoDup d k v : NoDup d.*1 → NoDup (dict_set d k v).*1.
Proof.
  intros Hnd. rewrite dict_set_keys. case_decide; [done|].
  apply NoDup_app. split_and!; [done| |apply NoDup_singleton].
  intros x Hx ->%list_elem_of_singleton. done.
Qed.

Lemma dict_set_elem d k v k' v' :
  (k', v') ∈ dict_set d k v → (k' = k ∧ v' = v) ∨ (k', v') ∈ d.
Proof.
  induction d as [|[k0 v0] d IH]; simpl.
  - intros [= -> ->]%list_elem_of_singleton. by left.
  - destruct (decide (k0 = k)) as [->|Hne]; rewrite !elem_of_cons.
    + intros [[= -> ->]|?]; auto.
    + intros [?|?]; auto. destruct IH; auto.
Qed.
End dict_facts.

Section cells_facts.
Local Open Scope Z_scope.

Lemma elem_of_cells (nrows ncols r c : Z) :
  (r, c) ∈ Board.cells nrows ncols ↔ (0 ≤ r < nrows) ∧ (0 ≤ c < ncols).
Proof.
  unfold Board.cells. rewrite list_elem_of_bind. split.
  - intros (r' & Hc & Hr). apply list_elem_of_fmap in Hc as (c' & [= -> ->] & Hc).
    apply elem_of_seqZ in Hc, Hr. lia.
  - intros [Hr Hc]. exists r. split.
    + apply list_elem_of_fmap. exists c. split; [done|]. apply elem_of_seqZ. lia.
    + apply elem_of_seqZ. lia.
Qed.

Lemma NoDup_cells (nrows ncols : Z) : NoDup (Board.cells nrows ncols).
Proof.
  unfold Board.cells. apply NoDup_bind.
  - intros r1 r2 [r c] _ _ H1 H2.
    apply list_elem_of_fmap in H1 as (? & [= -> _] & _).
    apply list_elem_of_fmap in H2 as (? & [= -> _] & _). done.
  - intros r _. apply NoDup_fmap_2; [|apply NoDup_seqZ]. by intros ?? [=].
  - apply NoDup_seqZ.
Qed.

Lemma rows_lookup (ncols : Z) (k : nat) :
  0 < ncols → ∀ (m : Z) (i : nat),
  Z.of_nat i < Z.of_nat k * ncols →
  (seqZ m (Z.of_nat k) ≫= λ r, pair r <$> seqZ 0 ncols) !! i
  = Some (m + Z.of_nat i / ncols, Z.of_nat i mod ncols).
Proof.
  intros Hc. induction k as [|k IH]; intros m i Hi; [lia|].
  rewrite (seqZ_cons m) by lia. rewrite bind_cons.
  replace (Z.pred (Z.of_nat (S k))) with (Z.of_nat k) by lia.
  destruct (decide (Z.of_nat i < ncols)) as [Hlt|Hge].
  - rewrite lookup_app_l by (rewrite length_fmap, length_seqZ; lia).
    rewrite list_lookup_fmap, lookup_seqZ_lt by done. simpl.
    rewrite Z.div_small, Z.mod_small by lia. do 2 f_equal; lia.
  - rewrite lookup_app_r by (rewrite length_fmap, length_seqZ; lia).
    rewrite length_fmap, length_seqZ.
    rewrite IH by lia.
    replace (Z.of_nat (i - Z.to_nat ncols)) with (Z.of_nat i + (-1) * ncols) by lia.
    rewrite Z.div_add, Z.mod_add by lia. do 2 f_equal; lia.
Qed.

Lemma rows_length (ncols : Z) (k : nat) (m : Z) :
  length (seqZ m (Z.of_nat k) ≫= λ r, pair r <$> seqZ 0 ncols)
  = (k * Z.to_nat ncols)%nat.
Proof.
  revert m. induction k as [|k IH]; intros m; [done|].
  rewrite (seqZ_cons m) by lia. rewrite bind_cons, length_app.
  replace (Z.pred (Z.of_nat (S k))) with (Z.of_nat k) by lia.
  rewrite IH, length_fmap, length_seqZ. lia.
Qed.

Lemma length_cells (nrows ncols : Z) :
  0 < nrows → 0 < ncols → Z.of_nat (length (Board.cells nrows ncols)) = nrows * ncols.
Proof.
  intros Hr Hc. unfold Board.cells.
  rewrite <- (Z2Nat.id nrows) at 1 by lia.
  rewrite rows_length. lia.
Qed.

Lemma lookup_cells (nrows ncols : Z) (i : nat) :
  0 < ncols → Z.of_nat i < nrows * ncols →
  Board.cells nrows ncols !! i = Some (Z.of_nat i / ncols, Z.of_nat i mod ncols).
Proof.
  intros Hc Hi. unfold Board.cells.
  assert (0 < nrows) by nia.
  rewrite <- (Z2Nat.id nrows) at 1 by lia.
  rewrite rows_lookup by (rewrite ?Z2Nat.id; lia). done.
Qed.
End cells_facts.

Section dict_more.
Context {V : Type}.
Implicit Types (d : list (Z * V)) (k : Z) (v : V).

Lemma dict_get_set d k v k' :
  dict_get (dict_set d k v) k' = if decide (k = k') then Some v else dict_get d k'.
Proof.
  induction d as [|[k0 v0] d IH]; csimpl.
  - by destruct (decide (k = k')).
  - destruct (decide (k0 = k)) as [->|Hne]; csimpl.
    + by destruct (decide (k = k')).
    + rewrite IH. destruct (decide (k0 = k')) as [->|?]; [|done].
      by rewrite decide_False.
Qed.

Lemma dict_get_is_Some d k : is_Some (dict_get d k) ↔ k ∈ d.*1.
Proof.
  destruct (dict_get d k) as [v|] eqn:Hget.
  - split; [intros _|by eexists]. apply dict_get_Some_elem in Hget.
    change k with ((k, v).1). by apply list_elem_of_fmap_2.
  - apply dict_get_None in Hget. split; [by intros [? ?]|done].
Qed.
End dict_more.

Lemma last_occurrence {A : Type} `{EqDecision A} (l : list A) (x : A) :
  x ∈ l → ∃ i, l !! i = Some x ∧ ∀ j, i < j → l !! j ≠ Some x.
Proof.
  induction l as [|y l IH]; intros Hin; [by apply elem_of_nil in Hin|].
  destruct (decide (x ∈ l)) as [Htl|Hnin].
  - destruct (IH Htl) as (i & Hi & Hlast). exists (S i). split; [done|].
    intros [|j] Hj; [lia|]. apply Hlast. lia.
  - apply elem_of_cons in Hin as [->|?]; [|done].
    exists 0. split; [done|]. intros [|j] Hj Hx; [lia|].
    apply Hnin. by eapply list_elem_of_lookup_2.
Qed.

(** ** Construction *)

Lemma deref_lookup (h : list Player.t) (r : nat) (p : Player.t) :
  h !! r = Some p → deref h r = p.
Proof. unfold deref. by intros ->. Qed.

Lemma deref_alter_same {B : Type} (proj : Player.t → B) (f : Player.t → Player.t)
    (x r : nat) (h : list Player.t) :
  (∀ p, proj (f p) = proj p) → proj (deref (alter f x h) r) = proj (deref h r).
Proof.
  intros Hf. unfold deref. rewrite list_lookup_alter.
  case_decide; subst; [|done]. destruct (h !! r); simpl; auto.
Qed.

Lemma deref_fmap_same {B : Type} (proj : Player.t → B) (f : Player.t → Player.t)
    (h h' : list Player.t) (r : nat) :
  h' !! r = f <$> h !! r → (∀ p, proj (f p) = proj p) →
  proj (deref h' r) = proj (deref h r).
Proof. intros Hr Hf. unfold deref. rewrite Hr. destruct (h !! r); simpl; auto. Qed.

Lemma place_step_at (players : list nat) grid (h : list Player.t) (it player : nat)
    (c : Z * Z) :
  players !! it = Some player →
  Board.place_step players (Ok tt, grid, h, it) c
  = (Ok tt, <[c := Some (Player.id (deref h player))]> grid,
     alter (Player.with_positions [c]) player h, S it).
Proof. intros Hit. unfold Board.place_step. by rewrite Hit. Qed.

(** The loop of [place_players] from any iterator position: it never runs
    out of players, every player met ends with the cell of its last
    occurrence, and the grid holds the id of the player met at each cell. *)
Lemma place_loop (players : list nat) (cs : list (Z * Z)) :
  ∀ (grid : gmap (Z * Z) (option Z)) (h : list Player.t) (it : nat),
  it + length cs ≤ length players →
  ∃ grid' h',
    foldl (Board.place_step players) (Ok tt, grid, h, it) cs
      = (Ok tt, grid', h', it + length cs)
    ∧ length h' = length h
    ∧ (∀ r, (∀ j, j < length cs → players !! (it + j) ≠ Some r) → h' !! r = h !! r)
    ∧ (∀ j c r, cs !! j = Some c → players !! (it + j) = Some r →
         (∀ j', j < j' → j' < length cs → players !! (it + j') ≠ Some r) →
         h' !! r = Player.with_positions [c] <$> h !! r)
    ∧ (∀ c, c ∉ cs → grid' !! c = grid !! c)
    ∧ (NoDup cs → ∀ j c r, cs !! j = Some c → players !! (it + j) = Some r →
         grid' !! c = Some (Some (Player.id (deref h r)))).
Proof.
  induction cs as [|c cs IH]; intros grid h it Hit.
  - exists grid, h. simpl. rewrite Nat.add_0_r. split_and!; try done.
  - simpl in Hit. cbn [foldl].
    destruct (lookup_lt_is_Some_2 players it) as [p Hp]; [lia|].
    rewrite (place_step_at players grid h it p c Hp).
    destruct (IH (<[c := Some (Player.id (deref h p))]> grid)
                 (alter (Player.with_positions [c]) p h) (S it))
      as (grid' & h' & Hrun & Hlen' & Hout & Hin & Hgout & Hgin); [lia|].
    exists grid', h'. rewrite Hrun. split_and!.
    + simpl. do 2 f_equal. lia.
    + by rewrite Hlen', length_alter.
    + intros r Hr. rewrite Hout.
      * apply list_lookup_alter_ne. intros ->. apply (Hr 0); [simpl; lia|].
        by rewrite Nat.add_0_r.
      * intros j Hj. replace (S it + j) with (it + S j) by lia.
        apply Hr. simpl. lia.
    + intros [|j] c' r Hc' Hr Hlast; simpl in Hc'.
      * injection Hc' as ->. rewrite Nat.add_0_r in Hr. assert (r = p) as -> by congruence.
        rewrite Hout; [apply list_lookup_alter_eq|].
        intros j Hj. replace (S it + j) with (it + S j) by lia.
        apply Hlast; simpl; lia.
      * replace (it + S j) with (S it + j) in Hr by lia.
        rewrite (Hin j c' r Hc' Hr).
        -- rewrite list_lookup_alter. case_decide; subst; [|done].
           by destruct (h !! r).
        -- intros j' Hj' Hlen. replace (S it + j') with (it + S j') by lia.
           apply Hlast; simpl; lia.
    + intros c' [Hne Hc']%not_elem_of_cons. rewrite Hgout by done.
      by rewrite lookup_insert_ne.
    + intros [Hc Hnd]%NoDup_cons [|j] c' r Hc' Hr; simpl in Hc'.
      * injection Hc' as ->. rewrite Nat.add_0_r in Hr. assert (r = p) as -> by congruence.
        rewrite Hgout by done. by rewrite lookup_insert_eq.
      * replace (it + S j) with (S it + j) in Hr by lia.
        rewrite (Hgin Hnd j c' r Hc' Hr). do 2 f_equal.
        by apply (deref_alter_same Player.id).
Qed.

(** A successful construction, in closed form but for the store, of which
    it says what [place_players] did to each object. *)
Lemma init_Ok (h : list Player.t) (ps : list nat) (nrows ncols : Z) :
  (0 < nrows)%Z → (0 < ncols)%Z → Z.of_nat (length ps) = (nrows * ncols)%Z →
  ∃ grid h',
    Game.init ps nrows ncols h
    = (Ok (Game.mk (Game.register h ps []) (Board.mk nrows ncols grid) nrows ncols
                   [] false None None h' []), h')
    ∧ length h' = length h
    ∧ (∀ i r c, ps !! i = Some r → Board.cells nrows ncols !! i = Some c →
         grid !! c = Some (Some (Player.id (deref h r))))
    ∧ (∀ c, c ∉ Board.cells nrows ncols → grid !! c = None)
    ∧ (∀ i r, ps !! i = Some r → (∀ j, i < j → ps !! j ≠ Some r) →
         ∃ c, Board.cells nrows ncols !! i = Some c
              ∧ h' !! r = Player.with_positions [c] <$> h !! r)
    ∧ (∀ r, r ∉ ps → h' !! r = h !! r).
Proof.
  intros Hr Hc Hlen. pose proof (length_cells nrows ncols Hr Hc) as Hcells.
  unfold Game.init, Board.init, Board.place_players, Board.capacity.
  rewrite (decide_False (P := Z.of_nat (length ps) ≠ _)) by lia.
  rewrite (decide_False (P := (_ ∨ _))) by lia. cbn [Board.nrows Board.ncols Board._grid].
  rewrite (decide_False (P := Z.of_nat (length ps) ≠ _)) by lia.
  destruct (place_loop ps (Board.cells nrows ncols)
              (list_to_map ((λ c, (c, None)) <$> Board.cells nrows ncols)) h 0)
    as (grid' & h' & Hrun & Hlen' & Hout & Hin & Hgout & Hgin); [lia|].
  rewrite Hrun. exists grid', h'. split_and!; [done|done| | | |].
  - intros i r c Hi Hci. by apply (Hgin (NoDup_cells _ _) i c r).
  - intros c Hnin. rewrite Hgout by done.
    apply not_elem_of_list_to_map_1. rewrite <- list_fmap_compose.
    by rewrite list_fmap_id.
  - intros i r Hi Hlast.
    destruct (lookup_lt_is_Some_2 (Board.cells nrows ncols) i) as [c Hci].
    { apply lookup_lt_Some in Hi. lia. }
    exists c. split; [done|]. apply (Hin i c r Hci Hi). intros j Hj _. by apply Hlast.
  - intros r Hr'. apply Hout. intros j _ Hj. apply Hr'. by eapply list_elem_of_lookup_2.
Qed.

Lemma init_mismatch (h : list Player.t) (ps : list nat) (nrows ncols : Z) :
  Z.of_nat (length ps) ≠ (nrows * ncols)%Z →
  Game.init ps nrows ncols h = (Err CardinalityMismatch, h).
Proof. intros Hne. unfold Game.init. by rewrite decide_True. Qed.

Lemma init_dimension (h : list Player.t) (ps : list nat) (nrows ncols : Z) :
  Z.of_nat (length ps) = (nrows * ncols)%Z → (nrows ≤ 0 ∨ ncols ≤ 0)%Z →
  Game.init ps nrows ncols h = (Err InvalidDimension, h).
Proof.
  intros Heq Hdim. unfold Game.init, Board.init.
  rewrite decide_False by lia. by rewrite decide_True.
Qed.

Lemma init_Ok_inv (h : list Player.t) (ps : list nat) (nrows ncols : Z) (g : Game.t) :
  (Game.init ps nrows ncols h).1 = Ok g →
  (0 < nrows)%Z ∧ (0 < ncols)%Z ∧ Z.of_nat (length ps) = (nrows * ncols)%Z.
Proof.
  intros Hg.
  destruct (decide (Z.of_nat (length ps) = (nrows * ncols)%Z)) as [Heq|Hne];
    [|by rewrite init_mismatch in Hg].
  destruct (decide (nrows ≤ 0 ∨ ncols ≤ 0)%Z) as [Hdim|Hdim];
    [by rewrite init_dimension in Hg|lia].
Qed.

(** What a successful construction leaves in the game: the fields, and each
    object of the store either untouched or on the single cell of its last
    occurrence in the list. *)
Lemma init_game (h : list Player.t) (ps : list nat) (nrows ncols : Z) (g : Game.t) :
  (Game.init ps nrows ncols h).1 = Ok g →
  Game.players g = Game.register h ps []
  ∧ Board.nrows (Game.board g) = nrows ∧ Board.ncols (Game.board g) = ncols
  ∧ Game.nrows g = nrows ∧ Game.ncols g = ncols
  ∧ Game.duel_history g = [] ∧ Game.over g = false ∧ Game.winner_id g = None
  ∧ Game.turn_challenger_id g = None ∧ Game.others g = []
  ∧ length (Game.heap g) = length h
  ∧ (∀ i r c, ps !! i = Some r → Board.cells nrows ncols !! i = Some c →
       Board._grid (Game.board g) !! c = Some (Some (Player.id (deref h r))))
  ∧ (∀ c, c ∉ Board.cells nrows ncols → Board._grid (Game.board g) !! c = None)
  ∧ (∀ r, ((r ∉ ps) ∧ Game.heap g !! r = h !! r)
          ∨ ∃ i c, ps !! i = Some r ∧ (∀ j, i < j → ps !! j ≠ Some r)
                   ∧ Board.cells nrows ncols !! i = Some c
                   ∧ Game.heap g !! r = Player.with_positions [c] <$> h !! r).
Proof.
  intros Hg. destruct (init_Ok_inv _ _ _ _ _ Hg) as (Hr & Hc & Hlen).
  destruct (init_Ok h ps nrows ncols Hr Hc Hlen)
    as (grid & h' & Hinit & Hlen' & Hgrid & Hdom & Hin & Hout).
  rewrite Hinit in Hg. injection Hg as <-. cbn. split_and!; try done.
  intros r. destruct (decide (r ∈ ps)) as [Hr'|Hr']; [right|left; auto].
  destruct (last_occurrence ps r Hr') as (i & Hi & Hlast).
  destruct (Hin i r Hi Hlast) as (c & Hci & Hh'). by exists i, c.
Qed.

Lemma init_deref_same {B : Type} (proj : Player.t → B) (h : list Player.t)
    (ps : list nat) (nrows ncols : Z) (g : Game.t) (r : nat) :
  (Game.init ps nrows ncols h).1 = Ok g →
  (∀ c p, proj (Player.with_positions [c] p) = proj p) →
  proj (deref (Game.heap g) r) = proj (deref h r).
Proof.
  intros Hg Hproj.
  destruct (init_game _ _ _ _ _ Hg) as (_ & _ & _ & _ & _ & _ & _ & _ & _ & _ & _ & _ & _ & Hheap).
  destruct (Hheap r) as [[_ Heq]|(i & c & _ & _ & _ & Heq)].
  - unfold deref. by rewrite Heq.
  - by apply (deref_fmap_same proj (Player.with_positions [c])).
Qed.

(** A listed player that is an object of the store sits on one cell of the
    board after the construction. *)
Lemma init_listed (h : list Player.t) (ps : list nat) (nrows ncols : Z) (g : Game.t)
    (r : nat) :
  (Game.init ps nrows ncols h).1 = Ok g → r ∈ ps → r < length h →
  ∃ c, c ∈ Board.cells nrows ncols ∧ Player.positions (deref (Game.heap g) r) = [c].
Proof.
  intros Hg Hr Hlt.
  destruct (init_game _ _ _ _ _ Hg) as (_ & _ & _ & _ & _ & _ & _ & _ & _ & _ & _ & _ & _ & Hheap).
  destruct (Hheap r) as [[Hnin _]|(i & c & _ & _ & Hci & Heq)]; [done|].
  exists c. split; [by eapply list_elem_of_lookup_2|].
  destruct (lookup_lt_is_Some_2 h r Hlt) as [p Hp].
  unfold deref. by rewrite Heq, Hp.
Qed.

(** ** One call, in closed form *)

(** The transfer loop hands the whole list over to the winner. *)
Lemma transfer_loop (w : nat) (l : list (Z * Z)) :
  ∀ (grid : gmap (Z * Z) (option Z)) (h : list Player.t),
  foldl (Game.transfer_step w) (grid, h) l
  = (foldl (λ m pos, <[pos := Some (Player.id (deref h w))]> m) grid l,
     alter (λ p, Player.with_positions (Player.positions p ++ l) p) w h).
Proof.
  induction l as [|c l IH]; intros grid h.
  - simpl. f_equal. symmetry. apply list_alter_id.
    intros [? ? ? ? ?]. unfold Player.with_positions. simpl. by rewrite app_nil_r.
  - cbn [foldl]. unfold Game.transfer_step at 2. cbn [fst snd].
    rewrite IH. rewrite (deref_alter_same Player.id) by done. f_equal.
    rewrite list_alter_alter_eq. apply list_alter_ext; [|done].
    intros [? ? ? ? ?] _. unfold Player.with_positions, Player.append_position.
    simpl. by rewrite <- app_assoc.
Qed.

Lemma set_duel_same (g : Game.t) (r : duel_ref) (d : Duel.t) :
  Game.get_duel g r = Some d → Game.set_duel r d g = g.
Proof.
  destruct r as [i|k]; simpl; intros Hd; unfold Game.with_duel_history, Game.with_others;
    rewrite list_insert_id by done; by destruct g.
Qed.

Lemma get_set_duel (g : Game.t) (r : duel_ref) (d d' : Duel.t) :
  Game.get_duel g r = Some d → Game.get_duel (Game.set_duel r d' g) r = Some d'.
Proof.
  destruct r as [i|k]; simpl; intros Hd; apply list_lookup_insert_eq;
    by eapply lookup_lt_Some.
Qed.

Lemma get_set_duel_ne (g : Game.t) (r r' : duel_ref) (d' : Duel.t) :
  r ≠ r' → Game.get_duel (Game.set_duel r d' g) r' = Game.get_duel g r'.
Proof.
  destruct r as [i|k], r' as [i'|k']; simpl; intros Hne; try done;
    apply list_lookup_insert_ne; congruence.
Qed.

Lemma resolve_duel_absent (g : Game.t) (r : duel_ref) (w : Z) :
  Game.get_duel g r = None → Game.resolve_duel r w g = (Err UnknownDuel, g).
Proof. intros Hr. unfold Game.resolve_duel. by rewrite Hr. Qed.

Lemma resolve_duel_unknown (g : Game.t) (r : duel_ref) (w : Z) (d : Duel.t) :
  Game.get_duel g r = Some d → Game.in_history g d = false →
  Game.resolve_duel r w g = (Err UnknownDuel, g).
Proof. intros Hr Hin. unfold Game.resolve_duel. by rewrite Hr, Hin. Qed.

Lemma resolve_duel_invalid (g : Game.t) (r : duel_ref) (w : Z) (d : Duel.t) :
  Game.get_duel g r = Some d → Game.in_history g d = true →
  w ≠ Player.id (deref (Game.heap g) (Duel.challenger d)) →
  w ≠ Player.id (deref (Game.heap g) (Duel.challenged d)) →
  Game.resolve_duel r w g = (Err InvalidWinner, g).
Proof.
  intros Hr Hin Ha Hb. unfold Game.resolve_duel, Duel.resolve. rewrite Hr, Hin.
  rewrite decide_True by done. cbn [negb]. by rewrite set_duel_same.
Qed.

Lemma resolve_duel_challenger (g : Game.t) (r : duel_ref) (w : Z) (d : Duel.t) :
  Game.get_duel g r = Some d → Game.in_history g d = true →
  w = Player.id (deref (Game.heap g) (Duel.challenger d)) →
  Game.resolve_duel r w g
  = (Ok tt, Game.check_over (moved g r w d (Duel.challenger d) (Duel.challenged d))).
Proof.
  intros Hr Hin Hw. unfold Game.resolve_duel, Duel.resolve. rewrite Hr, Hin.
  rewrite decide_False by tauto. cbn [negb].
  assert (Game.heap (Game.set_duel r (Duel.with_winner_id (Some w) d) g) = Game.heap g)
    as Hh by by destruct r.
  assert (Game.board (Game.set_duel r (Duel.with_winner_id (Some w) d) g) = Game.board g)
    as Hb by by destruct r.
  rewrite Hh, Hb.
  cbn [Duel.winner_id Duel.with_winner_id Duel.challenger Duel.challenged].
  rewrite decide_True by congruence.
  rewrite transfer_loop.
  rewrite (deref_alter_same Player.expertise) by done.
  rewrite !list_alter_alter_eq. by destruct r.
Qed.

Lemma resolve_duel_challenged (g : Game.t) (r : duel_ref) (w : Z) (d : Duel.t) :
  Game.get_duel g r = Some d → Game.in_history g d = true →
  w ≠ Player.id (deref (Game.heap g) (Duel.challenger d)) →
  w = Player.id (deref (Game.heap g) (Duel.challenged d)) →
  Game.resolve_duel r w g
  = (Ok tt, Game.check_over (moved g r w d (Duel.challenged d) (Duel.challenger d))).
Proof.
  intros Hr Hin Ha Hb. unfold Game.resolve_duel, Duel.resolve. rewrite Hr, Hin.
  rewrite decide_False by tauto. cbn [negb].
  assert (Game.heap (Game.set_duel r (Duel.with_winner_id (Some w) d) g) = Game.heap g)
    as Hh by by destruct r.
  assert (Game.board (Game.set_duel r (Duel.with_winner_id (Some w) d) g) = Game.board g)
    as Hbd by by destruct r.
  rewrite Hh, Hbd.
  cbn [Duel.winner_id Duel.with_winner_id Duel.challenger Duel.challenged].
  rewrite decide_False by congruence.
  rewrite transfer_loop.
  rewrite (deref_alter_same Player.expertise) by done.
  rewrite !list_alter_alter_eq. by destruct r.
Qed.

Lemma resolve_duel_cases (g : Game.t) (r : duel_ref) (w : Z) :
  (∃ e, Game.resolve_duel r w g = (Err e, g))
  ∨ (∃ d W L,
       Game.get_duel g r = Some d
       ∧ Game.in_history g d = true
       ∧ ((W = Duel.challenger d ∧ L = Duel.challenged d)
          ∨ (W = Duel.challenged d ∧ L = Duel.challenger d))
       ∧ w = Player.id (deref (Game.heap g) W)
       ∧ Game.resolve_duel r w g = (Ok tt, Game.check_over (moved g r w d W L))).
Proof.
  destruct (Game.get_duel g r) as [d|] eqn:Hr;
    [|left; eexists; by apply resolve_duel_absent].
  destruct (Game.in_history g d) eqn:Hin;
    [|left; eexists; by apply (resolve_duel_unknown g r w d)].
  destruct (decide (w = Player.id (deref (Game.heap g) (Duel.challenger d)))) as [Ha|Ha].
  { right. exists d, (Duel.challenger d), (Duel.challenged d).
    split_and!; [done|done|by left|done|by apply resolve_duel_challenger]. }
  destruct (decide (w = Player.id (deref (Game.heap g) (Duel.challenged d)))) as [Hb|Hb].
  { right. exists d, (Duel.challenged d), (Duel.challenger d).
    split_and!; [done|done|by right|done|by apply resolve_duel_challenged]. }
  left. eexists. by apply (resolve_duel_invalid g r w d).
Qed.

Lemma exec_step (g : Game.t) (c : Call) : step g (exec g c).
Proof.
  destruct c as [i cat|a b|r w|k|d]; simpl.
  - unfold Game.set_player_expertise.
    destruct (dict_get (Game.players g) i) as [r|] eqn:Hr; simpl;
      [by eapply step_expertise|constructor].
  - unfold Game.challenge.
    destruct (decide (a = b)); [constructor|].
    destruct (dict_get (Game.players g) a) as [ca|] eqn:Ha; [|constructor].
    destruct (dict_get (Game.players g) b) as [cb|] eqn:Hb; [|constructor].
    destruct (Player.expertise (deref (Game.heap g) cb)) as [cat|] eqn:He;
      [|constructor].
    simpl. by eapply step_challenge.
  - destruct (resolve_duel_cases g r w)
      as [[e ->]|(d & W & L & Hr & Hin & HWL & Hw & ->)];
      simpl; [constructor|by apply (step_resolve g r w d W L)].
  - unfold Game.start_turn. destruct (Game.alive_players g); simpl; constructor.
  - constructor.
Qed.

Lemma run_step_ind (P : Game.t → Prop) (g : Game.t) (cs : list Call) :
  P g → (∀ g1 g2, P g1 → step g1 g2 → P g2) → P (run g cs).
Proof.
  intros Hg Hstep. revert g Hg. induction cs as [|c cs IH]; intros g Hg; [done|].
  simpl. apply IH. eapply Hstep; [done|]. apply exec_step.
Qed.

Lemma run_snoc (g : Game.t) (cs : list Call) (c : Call) :
  run g (cs ++ [c]) = exec (run g cs) c.
Proof. unfold run. by rewrite foldl_app. Qed.

Lemma check_over_fields (g : Game.t) :
  Game.players (Game.check_over g) = Game.players g
  ∧ Game.board (Game.check_over g) = Game.board g
  ∧ Game.heap (Game.check_over g) = Game.heap g
  ∧ Game.duel_history (Game.check_over g) = Game.duel_history g
  ∧ Game.turn_challenger_id (Game.check_over g) = Game.turn_challenger_id g
  ∧ Game.others (Game.check_over g) = Game.others g.
Proof.
  unfold Game.check_over. destruct (Game.alive_players g) as [|a [|? ?]]; try done.
  case_decide; done.
Qed.

Lemma deref_alter (f : Player.t → Player.t) (i x : nat) (h : list Player.t) :
  deref (alter f i h) x
  = if decide (i = x ∧ x < length h) then f (deref h x) else deref h x.
Proof.
  unfold deref. rewrite list_lookup_alter.
  destruct (decide (i = x)) as [->|Hne].
  - destruct (h !! x) as [q|] eqn:Hq.
    + apply lookup_lt_Some in Hq. by rewrite decide_True.
    + apply lookup_ge_None in Hq. rewrite decide_False; [done|lia].
  - rewrite decide_False; [done|tauto].
Qed.

Lemma moved_history (g : Game.t) (r : duel_ref) (w : Z) (d : Duel.t) (W L : nat) :
  Game.duel_history (moved g r w d W L)
  = match r with
    | Entry i => <[i := Duel.with_winner_id (Some w) d]> (Game.duel_history g)
    | Outside _ => Game.duel_history g
    end.
Proof. by destruct r. Qed.

Lemma moved_get_duel (g : Game.t) (r : duel_ref) (w : Z) (d : Duel.t) (W L : nat)
    (r' : duel_ref) :
  Game.get_duel (moved g r w d W L) r'
  = Game.get_duel (Game.set_duel r (Duel.with_winner_id (Some w) d) g) r'.
Proof. by destruct r, r'. Qed.

(** What the transfer does to one object of the store, whatever the two
    references are: the loser is eliminated and has no cells, the winner
    gets the loser's cells and the challenger's expertise, every other
    object is as it was. *)
Lemma moved_deref (g : Game.t) (r : duel_ref) (w : Z) (d : Duel.t) (W L x : nat) :
  let p := deref (Game.heap g) x in
  let p' := deref (Game.heap (moved g r w d W L)) x in
  (x = L ∧ Player.eliminated p' = true ∧ Player.positions p' = []
   ∧ Player.id p' = Player.id p ∧ Player.name p' = Player.name p)
  ∨ (x = W ∧ x ≠ L
     ∧ p' = Player.mk (Player.id p) (Player.name p)
              (Player.expertise (deref (Game.heap g) (Duel.challenger d)))
              (Player.positions p ++ Player.positions (deref (Game.heap g) L))
              (Player.eliminated p))
  ∨ p' = p.
Proof.
  intros p p'. subst p p'. cbn [moved Game.heap].
  rewrite !deref_alter, length_alter.
  destruct (decide (L = x ∧ x < length (Game.heap g))) as [[-> Hlt]|HL].
  - left. split; [done|]. by case_decide.
  - destruct (decide (W = x ∧ x < length (Game.heap g))) as [[-> Hlt]|HW];
      [|by right; right].
    right. left. split_and!; [done|intros ->; tauto|done].
Qed.

Lemma moved_heap (g : Game.t) (r : duel_ref) (w : Z) (d : Duel.t) (W L : nat)
    (pw pl : Player.t) :
  W ≠ L → Game.heap g !! W = Some pw → Game.heap g !! L = Some pl →
  Game.heap (moved g r w d W L)
  = <[L := Player.mk (Player.id pl) (Player.name pl) (Player.expertise pl) [] true]>
      (<[W := Player.mk (Player.id pw) (Player.name pw)
                 (Player.expertise (deref (Game.heap g) (Duel.challenger d)))
                 (Player.positions pw ++ Player.positions pl)
                 (Player.eliminated pw)]> (Game.heap g)).
Proof.
  intros Hne HW HL. unfold moved. cbn [Game.heap].
  rewrite (alter_as_insert _ W _ pw) by done.
  rewrite (alter_as_insert _ L _ pl) by by rewrite list_lookup_insert_ne.
  by rewrite (deref_lookup _ _ _ HL).
Qed.

Lemma moved_positions (g : Game.t) (r : duel_ref) (w : Z) (d : Duel.t) (W L : nat)
    (pw pl : Player.t) :
  W ≠ L → Game.heap g !! W = Some pw → Game.heap g !! L = Some pl →
  Player.positions (deref (Game.heap (moved g r w d W L)) W)
  = Player.positions pw ++ Player.positions pl
  ∧ Player.positions (deref (Game.heap (moved g r w d W L)) L) = []
  ∧ Player.eliminated (deref (Game.heap (moved g r w d W L)) L) = true
  ∧ Player.expertise (deref (Game.heap (moved g r w d W L)) W)
    = Player.expertise (deref (Game.heap g) (Duel.challenger d)).
Proof.
  intros Hne HW HL. rewrite (moved_heap g r w d W L pw pl) by done.
  unfold deref. rewrite list_lookup_insert_ne by done.
  rewrite !list_lookup_insert_eq
    by (rewrite ?length_insert; by eapply lookup_lt_Some).
  done.
Qed.

Lemma moved_ids (g : Game.t) (r : duel_ref) (w : Z) (d : Duel.t) (W L x : nat) :
  Player.id (deref (Game.heap (moved g r w d W L)) x) = Player.id (deref (Game.heap g) x).
Proof. cbn [moved Game.heap]. by rewrite !(deref_alter_same Player.id). Qed.

(** The grid after the transfer. *)
Lemma moved_grid (g : Game.t) (r : duel_ref) (w : Z) (d : Duel.t) (W L : nat)
    (c : Z * Z) :
  Board._grid (Game.board (moved g r w d W L)) !! c
  = if decide (c ∈ Player.positions (deref (Game.heap g) L))
    then Some (Some (Player.id (deref (Game.heap g) W)))
    else Board._grid (Game.board g) !! c.
Proof.
  cbn [moved Game.board Board._grid]. case_decide.
  - by apply (foldl_insert_in (λ _, Some (Player.id (deref (Game.heap g) W)))).
  - by apply (foldl_insert_notin (λ _, Some (Player.id (deref (Game.heap g) W)))).
Qed.

(** ** The registry *)

Lemma register_NoDup (h : list Player.t) (ps : list nat) :
  ∀ d : list (Z * nat), NoDup d.*1 → NoDup (Game.register h ps d).*1.
Proof.
  induction ps as [|p ps IH]; intros d Hd; simpl; [done|].
  apply IH. by apply dict_set_NoDup.
Qed.

Lemma register_elem (h : list Player.t) (ps : list nat) :
  ∀ (d : list (Z * nat)) (k : Z) (x : nat),
  (k, x) ∈ Game.register h ps d →
  (k, x) ∈ d ∨ (x ∈ ps ∧ Player.id (deref h x) = k).
Proof.
  induction ps as [|p ps IH]; intros d k x Hin; simpl in Hin; [by left|].
  apply IH in Hin as [Hin|[Hx Hk]].
  - apply dict_set_elem in Hin as [[-> ->]|Hin]; [|by left].
    right. split; [apply list_elem_of_here|done].
  - right. split; [by apply list_elem_of_further|done].
Qed.

Lemma register_fresh (h : list Player.t) (ps : list nat) :
  ∀ d : list (Z * nat),
  NoDup (d.*1 ++ ids h ps) → Game.register h ps d = d ++ zip (ids h ps) ps.
Proof.
  unfold ids. induction ps as [|p ps IH]; intros d Hnd; simpl.
  - by rewrite app_nil_r.
  - csimpl in Hnd. apply NoDup_app in Hnd as Hnd'. destruct Hnd' as (_ & Hdis & _).
    rewrite dict_set_fresh.
    + rewrite IH; [by rewrite <- app_assoc|].
      rewrite fmap_app. csimpl. by rewrite <- app_assoc.
    + intros Hin. apply (Hdis _ Hin). apply list_elem_of_here.
Qed.

Lemma register_get_other (h : list Player.t) (ps : list nat) (k : Z) :
  ∀ d : list (Z * nat),
  k ∉ ids h ps → dict_get (Game.register h ps d) k = dict_get d k.
Proof.
  unfold ids. induction ps as [|p ps IH]; intros d Hk; simpl; [done|].
  csimpl in Hk. apply not_elem_of_cons in Hk as [Hne Hk].
  rewrite IH by done. rewrite dict_get_set. by rewrite decide_False.
Qed.

Lemma register_get_last (h : list Player.t) (ps : list nat) :
  ∀ (d : list (Z * nat)) (i r : nat),
  ps !! i = Some r →
  (∀ j r', i < j → ps !! j = Some r' → Player.id (deref h r') ≠ Player.id (deref h r)) →
  dict_get (Game.register h ps d) (Player.id (deref h r)) = Some r.
Proof.
  induction ps as [|p0 ps IH]; intros d i r Hr Hlast; [done|].
  destruct i as [|i]; simpl in Hr |- *.
  - injection Hr as ->. rewrite register_get_other.
    + by rewrite dict_get_set, decide_True.
    + intros (q & Hq & [j Hj]%list_elem_of_lookup)%list_elem_of_fmap.
      apply (Hlast (S j) q); [lia|done|done].
  - apply (IH _ i r Hr). intros j q Hj Hq. apply (Hlast (S j) q); [lia|done].
Qed.

Lemma last_with_id (h : list Player.t) (ps : list nat) (k : Z) :
  k ∈ ids h ps →
  ∃ j r, ps !! j = Some r ∧ Player.id (deref h r) = k
         ∧ ∀ j' r', j < j' → ps !! j' = Some r' → Player.id (deref h r') ≠ k.
Proof.
  unfold ids. induction ps as [|p0 ps IH]; csimpl; intros Hin;
    [by apply elem_of_nil in Hin|].
  destruct (decide (k ∈ (λ r, Player.id (deref h r)) <$> ps)) as [Htl|Hnin].
  - destruct (IH Htl) as (j & q & Hq & Hid & Hlast).
    exists (S j), q. split_and!; [done|done|].
    intros [|j'] q' Hj' Hq'; [lia|]. apply (Hlast j' q'); [lia|done].
  - apply elem_of_cons in Hin as [->|?]; [|done].
    exists 0, p0. split_and!; [done|done|].
    intros [|j'] q' Hj' Hq' Heq; [lia|]. apply Hnin. rewrite <- Heq.
    apply (list_elem_of_fmap_2 (λ r, Player.id (deref h r))).
    by eapply list_elem_of_lookup_2.
Qed.

Lemma ids_NoDup (h : list Player.t) (ps : list nat) : NoDup (ids h ps) → NoDup ps.
Proof. apply NoDup_fmap_1. Qed.

(** ** References stay sound *)

Lemma init_wf (h : list Player.t) (ps : list nat) (nrows ncols : Z) (g : Game.t) :
  (Game.init ps nrows ncols h).1 = Ok g → wf g.
Proof.
  intros Hg. pose proof (init_game _ _ _ _ _ Hg) as (Hp & _ & _ & _ & _ & Hd & _).
  split.
  - rewrite Hp. apply register_NoDup. constructor.
  - intros k r. rewrite Hp. intros [Hin|[_ Hk]]%register_elem;
      [by apply elem_of_nil in Hin|].
    by rewrite (init_deref_same Player.id h ps nrows ncols g r Hg).
  - rewrite Hd. constructor.
Qed.

Lemma wf_step (g g' : Game.t) : wf g → step g g' → wf g'.
Proof.
  intros [Hk Hr Hd] Hstep.
  destruct Hstep as [|i r cat Hi|a b ca cb cat Hab Ha Hb He|r w d W L Hget Hin HWL Hw|x|d].
  - done.
  - split; simpl; [done| |done].
    intros k r' Hin. rewrite (deref_alter_same Player.id) by done. by apply Hr.
  - split; simpl; [done|done|].
    apply Forall_app. split; [done|]. apply Forall_singleton.
    exists a, b. split_and!; [done|by apply dict_get_Some_elem..].
  - destruct (check_over_fields (moved g r w d W L)) as (Hp & _ & Hh & Hdh & _).
    split; rewrite ?Hp, ?Hh, ?Hdh.
    + done.
    + intros k r' Hin'. rewrite moved_ids. by apply Hr.
    + rewrite moved_history. destruct r as [i|k]; [|done].
      apply Forall_insert; [done|].
      eapply Forall_lookup_1 in Hd; [|exact Hget]. done.
  - split; done.
  - split; done.
Qed.

Lemma run_wf (h : list Player.t) (ps : list nat) (nrows ncols : Z) (g : Game.t)
    (cs : list Call) :
  (Game.init ps nrows ncols h).1 = Ok g → wf (run g cs).
Proof. intros Hg. apply run_step_ind; [by eapply init_wf|apply wf_step]. Qed.

Lemma run_players (g : Game.t) (cs : list Call) :
  Game.players (run g cs) = Game.players g.
Proof.
  apply (run_step_ind (λ g', Game.players g' = Game.players g)); [done|].
  intros g1 g2 Heq Hstep.
  destruct Hstep as [|i r cat Hi|a b ca cb cat Hab Ha Hb He|r w d W L Hget Hin HWL Hw|x|d];
    try done.
  by destruct (check_over_fields (moved g1 r w d W L)) as (-> & _).
Qed.

Lemma run_heap_length (g : Game.t) (cs : list Call) :
  length (Game.heap (run g cs)) = length (Game.heap g).
Proof.
  apply (run_step_ind (λ g', length (Game.heap g') = length (Game.heap g))); [done|].
  intros g1 g2 Heq Hstep.
  destruct Hstep as [|i r cat Hi|a b ca cb cat Hab Ha Hb He|r w d W L Hget Hin HWL Hw|x|d];
    try done.
  - cbn. by rewrite length_alter.
  - destruct (check_over_fields (moved g1 r w d W L)) as (_ & _ & -> & _).
    cbn [moved Game.heap]. by rewrite !length_alter.
Qed.

Lemma run_dims (g : Game.t) (cs : list Call) :
  Board.nrows (Game.board (run g cs)) = Board.nrows (Game.board g)
  ∧ Board.ncols (Game.board (run g cs)) = Board.ncols (Game.board g).
Proof.
  apply (run_step_ind (λ g', Board.nrows (Game.board g') = Board.nrows (Game.board g)
                             ∧ Board.ncols (Game.board g') = Board.ncols (Game.board g)));
    [done|].
  intros g1 g2 IH Hstep.
  destruct Hstep as [|i x cat Hi|a b ca cb cat Hab Ha Hb He|r w d W L Hget Hin HWL Hw|x|d];
    try done.
  by destruct (check_over_fields (moved g1 r w d W L)) as (_ & -> & _).
Qed.

Lemma run_ids (g : Game.t) (cs : list Call) (r : nat) :
  Player.id (deref (Game.heap (run g cs)) r) = Player.id (deref (Game.heap g) r).
Proof.
  apply (run_step_ind (λ g', Player.id (deref (Game.heap g') r)
                             = Player.id (deref (Game.heap g) r))); [done|].
  intros g1 g2 IH Hstep. rewrite <- IH.
  destruct Hstep as [|i x cat Hi|a b ca cb cat Hab Ha Hb He|r' w d W L Hget Hin HWL Hw|x|d];
    try done.
  - by apply (deref_alter_same Player.id).
  - destruct (check_over_fields (moved g1 r' w d W L)) as (_ & _ & -> & _).
    apply moved_ids.
Qed.

(** The registered players are objects of the store when the listed
    players are. *)
Lemma run_live (h : list Player.t) (ps : list nat) (nrows ncols : Z) (g : Game.t)
    (cs : list Call) :
  Forall (λ r, r < length h) ps →
  (Game.init ps nrows ncols h).1 = Ok g → live (run g cs).
Proof.
  intros Hall Hg x. rewrite run_players, run_heap_length.
  pose proof (init_game _ _ _ _ _ Hg) as (Hp & _ & _ & _ & _ & _ & _ & _ & _ & _ & Hlen & _).
  rewrite Hp, Hlen. unfold dict_values.
  intros ([k x'] & -> & [Hin|[Hx _]]%register_elem)%list_elem_of_fmap;
    [by apply elem_of_nil in Hin|].
  rewrite Forall_forall in Hall. by apply Hall.
Qed.

Lemma live_lookup (g : Game.t) (x : nat) :
  live g → x ∈ dict_values (Game.players g) →
  ∃ p, Game.heap g !! x = Some p ∧ deref (Game.heap g) x = p.
Proof.
  intros Hl Hx. destruct (lookup_lt_is_Some_2 (Game.heap g) x (Hl x Hx)) as [p Hp].
  exists p. split; [done|by apply deref_lookup].
Qed.

Lemma wf_value (g : Game.t) (x : nat) :
  wf g → x ∈ dict_values (Game.players g) →
  (Player.id (deref (Game.heap g) x), x) ∈ Game.players g.
Proof.
  intros [_ Hr _] Hx. unfold dict_values in Hx.
  apply list_elem_of_fmap in Hx as ([k x'] & -> & Hin).
  simpl. by rewrite (Hr _ _ Hin).
Qed.

Lemma wf_get (g : Game.t) (x : nat) :
  wf g → x ∈ dict_values (Game.players g) →
  dict_get (Game.players g) (Player.id (deref (Game.heap g) x)) = Some x.
Proof.
  intros Hwf Hx. apply dict_get_elem; [by destruct Hwf|by apply wf_value].
Qed.

Lemma elem_of_values (g : Game.t) (k : Z) (x : nat) :
  (k, x) ∈ Game.players g → x ∈ dict_values (Game.players g).
Proof. intros Hin. unfold dict_values. apply list_elem_of_fmap. by exists (k, x). Qed.

Lemma wf_values_NoDup (g : Game.t) : wf g → NoDup (dict_values (Game.players g)).
Proof.
  intros [Hk Hr _]. unfold dict_values. apply NoDup_fmap_2_strong.
  - intros [k1 r1] [k2 r2] H1 H2 Heq. simpl in Heq. subst r2.
    rewrite <- (Hr _ _ H1), <- (Hr _ _ H2). done.
  - by apply NoDup_fmap_1 in Hk.
Qed.

(** ** Duels that [resolve_duel] accepts *)

Lemma in_history_twin (g : Game.t) (d : Duel.t) :
  Game.in_history g d = true ↔
  ∃ x, x ∈ Game.duel_history g ∧ Duel.fields (Game.heap g) x = Duel.fields (Game.heap g) d.
Proof.
  unfold Game.in_history. rewrite existsb_exists.
  split; intros (x & Hx & Heq); exists x; split.
  - by apply list_elem_of_In.
  - unfold Duel.__eq__ in Heq. by apply bool_decide_eq_true in Heq.
  - by apply list_elem_of_In.
  - unfold Duel.__eq__. by apply bool_decide_eq_true.
Qed.

Lemma entry_in_history (g : Game.t) (i : nat) (d : Duel.t) :
  Game.duel_history g !! i = Some d → Game.in_history g d = true.
Proof.
  intros Hi. apply in_history_twin. exists d. split; [|done].
  by eapply list_elem_of_lookup_2.
Qed.

(** An accepted duel is between two players that look like two registered
    players with different ids; so its two players are different objects. *)
Lemma wf_accepted (g : Game.t) (d : Duel.t) :
  wf g → Game.in_history g d = true →
  ∃ ra rb,
    ra ∈ dict_values (Game.players g) ∧ rb ∈ dict_values (Game.players g)
    ∧ deref (Game.heap g) ra = deref (Game.heap g) (Duel.challenger d)
    ∧ deref (Game.heap g) rb = deref (Game.heap g) (Duel.challenged d)
    ∧ Player.id (deref (Game.heap g) (Duel.challenger d))
      ≠ Player.id (deref (Game.heap g) (Duel.challenged d))
    ∧ Duel.challenger d ≠ Duel.challenged d.
Proof.
  intros [Hk Hr Hd] (x & Hx & Heq)%in_history_twin.
  rewrite Forall_forall in Hd. destruct (Hd x Hx) as (ka & kb & Hne & Ha & Hb).
  unfold Duel.fields in Heq. injection Heq as Hca Hcb _ _.
  exists (Duel.challenger x), (Duel.challenged x).
  assert (Player.id (deref (Game.heap g) (Duel.challenger d))
          ≠ Player.id (deref (Game.heap g) (Duel.challenged d))) as Hids.
  { rewrite <- Hca, <- Hcb. by rewrite (Hr _ _ Ha), (Hr _ _ Hb). }
  split_and!; [by eapply elem_of_values|by eapply elem_of_values|done|done|done|].
  intros Heq. by rewrite Heq in Hids.
Qed.

(** The duels of the history, and the duels the caller built from players
    of the game, are between registered players. *)
Lemma wf_own (g : Game.t) (r : duel_ref) (d : Duel.t) :
  wf g → own_duel g r = true → Game.get_duel g r = Some d →
  Duel.challenger d ∈ dict_values (Game.players g)
  ∧ Duel.challenged d ∈ dict_values (Game.players g).
Proof.
  intros [_ _ Hd] Hown Hget. destruct r as [i|k]; simpl in *.
  - eapply Forall_lookup_1 in Hd as (ka & kb & _ & Ha & Hb); [|done].
    split; by eapply elem_of_values.
  - rewrite Hget in Hown. apply andb_true_iff in Hown as [Ha Hb].
    apply bool_decide_eq_true in Ha, Hb. done.
Qed.

(** ** Runs under a condition on the calls *)

Lemma run_fair_ind (P : Game.t → Prop) (cs : list Call) :
  ∀ g, P g →
  (∀ g c, P g → fair_call g c = true → P (exec g c)) →
  fair g cs = true → P (run g cs).
Proof.
  induction cs as [|c cs IH]; intros g Hg Hstep Hfair; [done|].
  simpl in Hfair. apply andb_true_iff in Hfair as [Hc Hcs].
  simpl. apply IH; auto.
Qed.

Lemma run_own_ind (P : Game.t → Prop) (cs : list Call) :
  ∀ g, P g →
  (∀ g c, P g → own_call g c = true → P (exec g c)) →
  own g cs = true → P (run g cs).
Proof.
  induction cs as [|c cs IH]; intros g Hg Hstep Hown; [done|].
  simpl in Hown. apply andb_true_iff in Hown as [Hc Hcs].
  simpl. apply IH; auto.
Qed.

Lemma run_fair_own_ind (P : Game.t → Prop) (cs : list Call) :
  ∀ g, P g →
  (∀ g c, P g → fair_call g c = true → own_call g c = true → P (exec g c)) →
  fair g cs = true → own g cs = true → P (run g cs).
Proof.
  induction cs as [|c cs IH]; intros g Hg Hstep Hfair Hown; [done|].
  simpl in Hfair, Hown.
  apply andb_true_iff in Hfair as [Hc Hcs]. apply andb_true_iff in Hown as [Ho Hos].
  simpl. apply IH; auto.
Qed.

Lemma own_app (cs cs' : list Call) :
  ∀ g, own g (cs ++ cs') = own g cs && own (run g cs) cs'.
Proof.
  induction cs as [|c cs IH]; intros g; [done|].
  simpl. by rewrite IH, andb_assoc.
Qed.

Lemma exec_live (g : Game.t) (c : Call) : live g → live (exec g c).
Proof.
  intros Hl x. change (exec g c) with (run g [c]).
  rewrite run_players, run_heap_length. apply Hl.
Qed.

(** ** The cells stay partitioned *)

Section concat_facts.
Context {A : Type}.
Implicit Types (ll : list (list A)) (x y : list A).

Lemma concat_insert_perm ll (i : nat) x y :
  ll !! i = Some x → mjoin (<[i := y]> ll) ++ x ≡ₚ mjoin ll ++ y.
Proof.
  revert i. induction ll as [|l ll IH]; intros [|i] Hi; simplify_eq/=.
  - rewrite (comm (++) (y ++ mjoin ll) x), <- (assoc_L (++) x).
    f_equiv. apply (comm (++)).
  - rewrite <- !(assoc_L (++)). f_equiv. by apply IH.
Qed.

Lemma concat_lookup_disjoint ll (i j : nat) x y (a : A) :
  NoDup (mjoin ll) → ll !! i = Some x → ll !! j = Some y → i ≠ j →
  a ∈ x → a ∉ y.
Proof.
  revert i j. induction ll as [|l ll IH]; intros i j Hnd Hi Hj Hne Hx Hy; [done|].
  simpl in Hnd. apply NoDup_app in Hnd as (_ & Hdis & Hnd).
  destruct i as [|i], j as [|j]; simplify_eq/=.
  - apply (Hdis a Hx). apply list_elem_of_join. exists y.
    split; [done|by eapply list_elem_of_lookup_2].
  - apply (Hdis a Hy). apply list_elem_of_join. exists x.
    split; [done|by eapply list_elem_of_lookup_2].
  - eapply (IH i j); eauto.
Qed.

Lemma concat_move ll (W L : nat) x y :
  W ≠ L → ll !! W = Some x → ll !! L = Some y →
  mjoin (<[L := []]> (<[W := x ++ y]> ll)) ≡ₚ mjoin ll.
Proof.
  intros Hne HW HL.
  assert (<[W := x ++ y]> ll !! L = Some y) as HL'
    by by rewrite list_lookup_insert_ne.
  pose proof (concat_insert_perm _ _ _ [] HL') as H1.
  pose proof (concat_insert_perm _ _ _ (x ++ y) HW) as H2.
  rewrite app_nil_r in H1.
  apply (inj (.++ (y ++ x))). rewrite (assoc_L (++)), H1, H2.
  f_equiv. apply (comm (++)).
Qed.

Lemma NoDup_join_elem ll (l : list A) : NoDup (mjoin ll) → l ∈ ll → NoDup l.
Proof.
  induction ll as [|l' ll IH]; intros Hnd Hin; [by apply elem_of_nil in Hin|].
  simpl in Hnd. apply NoDup_app in Hnd as (Hl' & _ & Hll).
  apply elem_of_cons in Hin as [->|Hin]; auto.
Qed.
End concat_facts.

(** Moving the list of one element of a duplicate-free list over to another
    element rearranges the lists put end to end. *)
Lemma fmap_move {A B : Type} (f f' : A → list B) (l : list A) (W L : A) :
  NoDup l → W ∈ l → L ∈ l → W ≠ L →
  f' L = [] → f' W = f W ++ f L → (∀ x, x ≠ W → x ≠ L → f' x = f x) →
  mjoin (f' <$> l) ≡ₚ mjoin (f <$> l).
Proof.
  intros Hnd [iW HiW]%list_elem_of_lookup [iL HiL]%list_elem_of_lookup Hne HL HW Hother.
  assert (iW ≠ iL) as Hi by (intros ->; congruence).
  rewrite <- (concat_move (f <$> l) iW iL (f W) (f L))
    by (try done; by rewrite list_lookup_fmap, ?HiW, ?HiL).
  assert (f' <$> l = <[iL := []]> (<[iW := f W ++ f L]> (f <$> l))) as ->; [|done].
  apply list_eq; intros j. rewrite list_lookup_fmap.
  destruct (decide (j = iL)) as [->|HjL].
  { rewrite list_lookup_insert_eq
      by (rewrite length_insert, length_fmap; by eapply lookup_lt_Some).
    rewrite HiL. simpl. by rewrite HL. }
  rewrite list_lookup_insert_ne by done.
  destruct (decide (j = iW)) as [->|HjW].
  { rewrite list_lookup_insert_eq by (rewrite length_fmap; by eapply lookup_lt_Some).
    rewrite HiW. simpl. by rewrite HW. }
  rewrite list_lookup_insert_ne by done. rewrite list_lookup_fmap.
  destruct (l !! j) as [x|] eqn:Hj; [|done]. simpl. rewrite Hother; [done|..].
  - intros ->. apply HjW. by apply (NoDup_lookup l j iW W).
  - intros ->. apply HjL. by apply (NoDup_lookup l j iL L).
Qed.

Lemma part_NoDup (g : Game.t) :
  part g →
  NoDup (mjoin ((λ x, Player.positions (deref (Game.heap g) x))
                  <$> dict_values (Game.players g))).
Proof. intros [Hperm _ _]. rewrite Hperm. apply NoDup_cells. Qed.

Lemma part_owned (g : Game.t) (x : nat) (c : Z * Z) :
  part g → owner g x c →
  c ∈ Board.cells (Board.nrows (Game.board g)) (Board.ncols (Game.board g)).
Proof.
  intros [Hperm _ _] [Hx Hc]. rewrite <- Hperm. apply list_elem_of_join.
  exists (Player.positions (deref (Game.heap g) x)). split; [done|].
  by apply (list_elem_of_fmap_2 (λ x, Player.positions (deref (Game.heap g) x))).
Qed.

Lemma part_disjoint (g : Game.t) (x y : nat) (c : Z * Z) :
  part g → owner g x c → owner g y c → x = y.
Proof.
  intros Hpart [[i Hi]%list_elem_of_lookup Hx] [[j Hj]%list_elem_of_lookup Hy].
  destruct (decide (i = j)) as [->|Hne]; [congruence|]. exfalso.
  apply (concat_lookup_disjoint
           ((λ x, Player.positions (deref (Game.heap g) x))
              <$> dict_values (Game.players g)) i j
           (Player.positions (deref (Game.heap g) x))
           (Player.positions (deref (Game.heap g) y)) c); try done.
  - by apply part_NoDup.
  - by rewrite list_lookup_fmap, Hi.
  - by rewrite list_lookup_fmap, Hj.
Qed.

Lemma part_positions_NoDup (g : Game.t) (x : nat) :
  part g → x ∈ dict_values (Game.players g) →
  NoDup (Player.positions (deref (Game.heap g) x)).
Proof.
  intros Hpart Hx.
  apply (NoDup_join_elem ((λ x, Player.positions (deref (Game.heap g) x))
                            <$> dict_values (Game.players g))).
  - by apply part_NoDup.
  - by apply (list_elem_of_fmap_2 (λ x, Player.positions (deref (Game.heap g) x))).
Qed.

Lemma part_cover (nrows ncols : Z) (g : Game.t) (r c : Z) :
  part g → Board.nrows (Game.board g) = nrows → Board.ncols (Game.board g) = ncols →
  (0 ≤ r < nrows ∧ 0 ≤ c < ncols)%Z ↔ ∃ x, owner g x (r, c).
Proof.
  intros Hpart Hr Hc. pose proof Hpart as [Hperm _ _]. rewrite Hr, Hc in Hperm.
  unfold owner. rewrite <- elem_of_cells, <- Hperm, list_elem_of_join. split.
  - intros (l & Hin & (x & -> & Hx)%list_elem_of_fmap). by exists x.
  - intros (x & Hx & Hin). exists (Player.positions (deref (Game.heap g) x)).
    split; [done|].
    by apply (list_elem_of_fmap_2 (λ x, Player.positions (deref (Game.heap g) x))).
Qed.

(** A transfer between two registered players keeps the cells dealt out. *)
Lemma part_moved (g : Game.t) (r : duel_ref) (w : Z) (d : Duel.t) (W L : nat) :
  wf g → live g → part g →
  W ∈ dict_values (Game.players g) → L ∈ dict_values (Game.players g) → W ≠ L →
  part (Game.check_over (moved g r w d W L)).
Proof.
  intros Hwf Hlive Hpart HWv HLv Hne. pose proof Hpart as [Hperm Hgrid Hdom].
  destruct (live_lookup g W Hlive HWv) as (pw & HW & HdW).
  destruct (live_lookup g L Hlive HLv) as (pl & HL & HdL).
  destruct (moved_positions g r w d W L pw pl Hne HW HL) as (HposW & HposL & _ & _).
  assert (∀ x, x ≠ W → x ≠ L →
            deref (Game.heap (moved g r w d W L)) x = deref (Game.heap g) x) as Hother.
  { intros x HxW HxL. by destruct (moved_deref g r w d W L x) as [[? _]|[[? _]|?]]. }
  destruct (check_over_fields (moved g r w d W L)) as (Hp & Hb & Hh & _).
  assert (Game.players (moved g r w d W L) = Game.players g) as Hp' by done.
  assert (Board.nrows (Game.board (moved g r w d W L)) = Board.nrows (Game.board g)
          ∧ Board.ncols (Game.board (moved g r w d W L)) = Board.ncols (Game.board g))
    as [Hnr Hnc] by done.
  split; unfold owner; rewrite ?Hp, ?Hb, ?Hh, ?Hp', ?Hnr, ?Hnc.
  - rewrite <- Hperm.
    apply (fmap_move (λ x, Player.positions (deref (Game.heap g) x))
             (λ x, Player.positions (deref (Game.heap (moved g r w d W L)) x))
             _ W L); try done.
    + by apply wf_values_NoDup.
    + by rewrite HposW, HdW, HdL.
    + intros x HxW HxL. by rewrite Hother.
  - intros x c [Hx Hc]. rewrite moved_grid, moved_ids, HdL.
    destruct (decide (x = L)) as [->|HxL]; [rewrite HposL in Hc; by apply elem_of_nil in Hc|].
    destruct (decide (x = W)) as [->|HxW].
    + case_decide; [done|]. rewrite HposW in Hc.
      apply elem_of_app in Hc as [Hc|Hc]; [|done]. apply Hgrid. split; [done|].
      by rewrite HdW.
    + rewrite Hother in Hc by done. rewrite decide_False; [by apply Hgrid|].
      intros Hin. apply HxL. apply (part_disjoint g x L c Hpart); [done|].
      split; [done|]. by rewrite HdL.
  - intros c Hc. rewrite moved_grid, HdL. rewrite decide_False; [by apply Hdom|].
    intros Hin. apply Hc. apply (part_owned g L c Hpart). split; [done|]. by rewrite HdL.
Qed.

Lemma part_exec (g : Game.t) (c : Call) :
  wf g → live g → part g → own_call g c = true → part (exec g c).
Proof.
  intros Hwf Hlive Hpart Hown. pose proof Hpart as [Hperm Hgrid Hdom].
  destruct c as [i cat|a b|r w|k|d].
  - simpl. unfold Game.set_player_expertise.
    destruct (dict_get (Game.players g) i) as [x|]; [|done]. cbn [snd].
    assert (∀ y, Player.positions (deref (alter (Player.choose_expertise cat) x
                                                 (Game.heap g)) y)
                 = Player.positions (deref (Game.heap g) y)) as Hpos
      by (intros y; by apply (deref_alter_same Player.positions)).
    split; unfold owner; cbn [Game.heap Game.players Game.board Game.with_heap].
    + rewrite <- Hperm.
      by rewrite (list_fmap_ext _ (λ y, Player.positions (deref (Game.heap g) y))
                    (dict_values (Game.players g)) (λ _ y _, Hpos y)).
    + intros y c [Hy Hc]. rewrite Hpos in Hc.
      rewrite (deref_alter_same Player.id) by done. by apply Hgrid.
    + done.
  - simpl. unfold Game.challenge. repeat (case_decide || case_match); done.
  - simpl. destruct (resolve_duel_cases g r w)
      as [[e ->]|(d & W & L & Hr & Hin & HWL & Hw & ->)]; [done|]. cbn [snd].
    destruct (wf_own g r d Hwf Hown Hr) as [Ha Hb].
    destruct (wf_accepted g d Hwf Hin) as (ra & rb & _ & _ & _ & _ & _ & Hne).
    destruct HWL as [[-> ->]|[-> ->]]; by apply part_moved.
  - simpl. unfold Game.start_turn. destruct (Game.alive_players g); done.
  - done.
Qed.

Lemma init_part (h : list Player.t) (ps : list nat) (nrows ncols : Z) (g : Game.t) :
  NoDup (ids h ps) → Forall (λ r, r < length h) ps →
  (Game.init ps nrows ncols h).1 = Ok g → part g.
Proof.
  intros Hnd Hall Hg. destruct (init_Ok_inv _ _ _ _ _ Hg) as (Hr & Hc & Hlen).
  pose proof (init_game _ _ _ _ _ Hg)
    as (Hp & Hnr & Hnc & _ & _ & _ & _ & _ & _ & _ & _ & Hgrid & Hdom & Hheap).
  pose proof (length_cells nrows ncols Hr Hc) as Hcells.
  pose proof (ids_NoDup h ps Hnd) as Hndps.
  assert (dict_values (Game.players g) = ps) as Hvals.
  { rewrite Hp, register_fresh by done. simpl. unfold dict_values, ids.
    apply snd_zip. by rewrite length_fmap. }
  assert (∀ i x, ps !! i = Some x →
            ∃ c, Board.cells nrows ncols !! i = Some c
                 ∧ Player.positions (deref (Game.heap g) x) = [c]) as Hpos.
  { intros i x Hi. destruct (Hheap x) as [[Hnin _]|(i' & c & Hi' & _ & Hci & Heq)].
    - destruct Hnin. by eapply list_elem_of_lookup_2.
    - assert (i' = i) as -> by by apply (NoDup_lookup ps i' i x).
      exists c. split; [done|].
      rewrite Forall_forall in Hall.
      destruct (lookup_lt_is_Some_2 h x) as [p Hpx];
        [apply Hall; by eapply list_elem_of_lookup_2|].
      unfold deref. by rewrite Heq, Hpx. }
  split; unfold owner; rewrite ?Hvals, ?Hnr, ?Hnc.
  - assert ((λ x, Player.positions (deref (Game.heap g) x)) <$> ps
            = (λ c, [c]) <$> Board.cells nrows ncols) as ->.
    { apply list_eq; intros j. rewrite !list_lookup_fmap.
      destruct (ps !! j) as [x|] eqn:Hj; simpl.
      - destruct (Hpos j x Hj) as (c & -> & ->). done.
      - apply lookup_ge_None in Hj.
        rewrite (lookup_ge_None_2 (Board.cells nrows ncols) j) by lia. done. }
    generalize (Board.cells nrows ncols). intros l.
    induction l as [|c l IH]; [done|]. simpl. by rewrite IH.
  - intros x c [[i Hi]%list_elem_of_lookup Hxc].
    destruct (Hpos i x Hi) as (c' & Hci & Heq). rewrite Heq in Hxc.
    apply list_elem_of_singleton in Hxc as ->.
    rewrite (init_deref_same Player.id h ps nrows ncols g x Hg) by done.
    by apply (Hgrid i).
  - done.
Qed.

Lemma run_part (h : list Player.t) (ps : list nat) (nrows ncols : Z) (g : Game.t)
    (cs : list Call) :
  NoDup (ids h ps) → Forall (λ r, r < length h) ps →
  (Game.init ps nrows ncols h).1 = Ok g → own g cs = true →
  wf (run g cs) ∧ live (run g cs) ∧ part (run g cs).
Proof.
  intros Hnd Hall Hg. apply (run_own_ind (λ g, wf g ∧ live g ∧ part g)).
  - split_and!; [by eapply init_wf|by apply (run_live h ps nrows ncols g [])
                 |by eapply init_part].
  - intros g1 c (Hwf & Hlive & Hpart) Hown.
    split_and!; [eapply wf_step; [done|apply exec_step]|by apply exec_live
                 |by apply part_exec].
Qed.

(** ** Elimination *)

Lemma init_registered (h : list Player.t) (ps : list nat) (nrows ncols : Z) (g : Game.t)
    (x : nat) :
  (Game.init ps nrows ncols h).1 = Ok g → x ∈ dict_values (Game.players g) → x ∈ ps.
Proof.
  intros Hg Hx. pose proof (init_game _ _ _ _ _ Hg) as (Hp & _).
  unfold dict_values in Hx. rewrite Hp in Hx.
  by apply list_elem_of_fmap in Hx as ([k x'] & -> & [Hin|[Hx _]]%register_elem);
    [apply elem_of_nil in Hin|].
Qed.

Lemma owns_step (g g' : Game.t) : owns g → step g g' → owns g'.
Proof.
  intros Howns Hstep.
  destruct Hstep as [|i r cat Hi|a b ca cb cat Hab Ha Hb He|r w d W L Hget Hin HWL Hw|x|d];
    try done.
  - intros x Hx. cbn [Game.heap Game.with_heap].
    rewrite (deref_alter_same Player.positions), (deref_alter_same Player.eliminated)
      by done.
    by apply Howns.
  - destruct (check_over_fields (moved g r w d W L)) as (Hp & _ & Hh & _).
    intros x. rewrite Hp, Hh. intros Hx.
    destruct (moved_deref g r w d W L x) as [(_ & Hel & _)|[(_ & _ & Heq)|Heq]].
    + done.
    + rewrite Heq. cbn [Player.positions Player.eliminated].
      intros [Hnil _]%app_eq_nil. by apply Howns.
    + rewrite Heq. by apply Howns.
Qed.

Lemma init_owns (h : list Player.t) (ps : list nat) (nrows ncols : Z) (g : Game.t) :
  Forall (λ r, r < length h) ps → (Game.init ps nrows ncols h).1 = Ok g → owns g.
Proof.
  intros Hall Hg x Hx%(init_registered h ps nrows ncols g); [|done].
  rewrite Forall_forall in Hall.
  destruct (init_listed h ps nrows ncols g x Hg Hx (Hall x Hx)) as (c & _ & ->). done.
Qed.

Lemma init_cleared (h : list Player.t) (ps : list nat) (nrows ncols : Z) (g : Game.t) :
  Forall (λ r, Player.eliminated (deref h r) = false) ps →
  (Game.init ps nrows ncols h).1 = Ok g → cleared g.
Proof.
  intros Hall Hg x Hx%(init_registered h ps nrows ncols g); [|done].
  rewrite (init_deref_same Player.eliminated h ps nrows ncols g x Hg) by done.
  rewrite Forall_forall in Hall. by rewrite (Hall x Hx).
Qed.

(** The winner of a fair call, when registered, is not eliminated. *)
Lemma fair_winner_alive (g : Game.t) (r : duel_ref) (w : Z) (W : nat) :
  wf g → W ∈ dict_values (Game.players g) →
  w = Player.id (deref (Game.heap g) W) →
  fair_call g (ResolveDuel r w) = true →
  Player.eliminated (deref (Game.heap g) W) = false.
Proof.
  intros Hwf HW Hw Hfair. simpl in Hfair. unfold alive_id in Hfair.
  rewrite Hw, (wf_get g W Hwf HW) in Hfair.
  by destruct (Player.eliminated (deref (Game.heap g) W)).
Qed.

Lemma cleared_exec (g : Game.t) (c : Call) :
  wf g → cleared g → fair_call g c = true → cleared (exec g c).
Proof.
  intros Hwf Hcl Hfair. destruct c as [i cat|a b|r w|k|d].
  - simpl. unfold Game.set_player_expertise.
    destruct (dict_get (Game.players g) i) as [x|]; [|done].
    intros y Hy. cbn [snd Game.heap Game.with_heap].
    rewrite (deref_alter_same Player.positions), (deref_alter_same Player.eliminated)
      by done.
    by apply Hcl.
  - simpl. unfold Game.challenge.
    repeat (case_decide || case_match); done.
  - simpl. destruct (resolve_duel_cases g r w)
      as [[e ->]|(d & W & L & Hr & Hin & HWL & Hw & ->)]; [done|]. cbn [snd].
    destruct (check_over_fields (moved g r w d W L)) as (Hp & _ & Hh & _).
    intros x. rewrite Hp, Hh. intros Hx.
    destruct (moved_deref g r w d W L x) as [(_ & _ & Hpos & _)|[(-> & _ & Heq)|Heq]].
    + done.
    + rewrite Heq. cbn [Player.positions Player.eliminated].
      by rewrite (fair_winner_alive g r w W Hwf Hx Hw Hfair).
    + rewrite Heq. by apply Hcl.
  - simpl. unfold Game.start_turn. destruct (Game.alive_players g); done.
  - done.
Qed.

(** ** The end of the game *)

Lemma alive_players_same (g g' : Game.t) :
  Game.players g' = Game.players g →
  (∀ r, r ∈ dict_values (Game.players g) →
        Player.eliminated (deref (Game.heap g') r)
        = Player.eliminated (deref (Game.heap g) r)) →
  Game.alive_players g' = Game.alive_players g.
Proof.
  intros Hp He. unfold Game.alive_players. rewrite Hp.
  generalize He. generalize (dict_values (Game.players g)). intros l Hl.
  induction l as [|x l IH]; [done|].
  rewrite !filter_cons, Hl by apply list_elem_of_here.
  rewrite IH; [done|]. intros r Hr. apply Hl. by apply list_elem_of_further.
Qed.

Lemma sole_owner_same (g g' : Game.t) (a : nat) :
  Game.players g' = Game.players g → Game.board g' = Game.board g →
  (∀ r, Player.eliminated (deref (Game.heap g') r)
        = Player.eliminated (deref (Game.heap g) r)) →
  (∀ r, Player.positions (deref (Game.heap g') r)
        = Player.positions (deref (Game.heap g) r)) →
  sole_owner g' a ↔ sole_owner g a.
Proof.
  intros Hp Hb He Hpos. unfold sole_owner.
  by rewrite (alive_players_same g g'), Hb, Hpos.
Qed.

Lemma check_over_spec (m : Game.t) :
  (∃ a, sole_owner m a
        ∧ Game.check_over m
          = Game.with_over true (Some (Player.id (deref (Game.heap m) a))) m)
  ∨ ((∀ a, ¬ sole_owner m a) ∧ Game.check_over m = m).
Proof.
  unfold Game.check_over, sole_owner.
  destruct (Game.alive_players m) as [|a [|b l]].
  - right. split; [|done]. by intros a [? _].
  - case_decide.
    + left. by exists a.
    + right. split; [|done]. intros a' [[= <-] ?]. done.
  - right. split; [|done]. by intros a' [? _].
Qed.

Lemma over_complete_step (g g' : Game.t) :
  over_complete g → step g g' → over_complete g'.
Proof.
  intros Hoc Hstep.
  destruct Hstep as [|i r cat Hi|a b ca cb cat Hab Ha Hb He|r w d W L Hget Hin HWL Hw|x|d];
    try done.
  - intros a Ha. cbn [Game.over Game.winner_id Game.heap Game.with_heap].
    rewrite (deref_alter_same Player.id) by done.
    apply Hoc. revert Ha.
    apply (sole_owner_same g (Game.with_heap _ g) a); try done; intros r'; simpl.
    + by apply (deref_alter_same Player.eliminated).
    + by apply (deref_alter_same Player.positions).
  - destruct (check_over_spec (moved g r w d W L)) as [(a & Ha & ->)|[Hno ->]].
    + intros a' [Hal _]. destruct Ha as [Ha _].
      change (Game.alive_players (moved g r w d W L) = [a']) in Hal.
      rewrite Ha in Hal. injection Hal as <-. done.
    + intros a' Ha'. by destruct (Hno a').
Qed.

Lemma init_over_complete (h : list Player.t) (ps : list nat) (nrows ncols : Z)
    (g : Game.t) :
  length ps ≠ 1 → (Game.init ps nrows ncols h).1 = Ok g → over_complete g.
Proof.
  intros Hone Hg. destruct (init_Ok_inv _ _ _ _ _ Hg) as (Hr & Hc & Hlen).
  pose proof (init_game _ _ _ _ _ Hg)
    as (Hp & Hnr & Hnc & _ & _ & _ & _ & _ & _ & _ & _ & _ & _ & Hheap).
  intros a [Hal Hcap]. exfalso.
  unfold Board.capacity in Hcap. rewrite Hnr, Hnc in Hcap.
  destruct (Hheap a) as [[Hnin _]|(i & c & _ & _ & _ & Heq)].
  - apply Hnin.
    assert (a ∈ Game.alive_players g) as Hin by (rewrite Hal; apply list_elem_of_here).
    apply list_elem_of_filter in Hin as [_ Hin].
    by apply (init_registered h ps nrows ncols g).
  - unfold deref in Hcap. rewrite Heq in Hcap.
    destruct (h !! a); simpl in Hcap; [lia|nia].
Qed.

Lemma step_over_mono (g g' : Game.t) :
  step g g' → Game.over g = true → Game.over g' = true.
Proof.
  intros Hstep Hover.
  destruct Hstep as [|i r cat Hi|a b ca cb cat Hab Ha Hb He|r w d W L Hget Hin HWL Hw|x|d];
    try done.
  by destruct (check_over_spec (moved g r w d W L)) as [(a & Ha & ->)|[Hno ->]].
Qed.

Lemma exec_over_rise (g : Game.t) (c : Call) :
  Game.over g = false → Game.over (exec g c) = true →
  (∃ r w, c = ResolveDuel r w ∧ (Game.resolve_duel r w g).1 = Ok tt)
  ∧ ∃ a, sole_owner (exec g c) a
         ∧ Game.winner_id (exec g c)
           = Some (Player.id (deref (Game.heap (exec g c)) a)).
Proof.
  intros Hf Ht. destruct c as [i cat|a b|r w|k|d]; simpl in *.
  - unfold Game.set_player_expertise in Ht.
    destruct (dict_get (Game.players g) i); simpl in Ht; congruence.
  - unfold Game.challenge in Ht.
    repeat (case_decide || case_match); simpl in Ht; congruence.
  - destruct (resolve_duel_cases g r w)
      as [[e He]|(d & W & L & Hr & Hin & HWL & Hw & He)];
      rewrite He in Ht |- *; simpl in Ht |- *; [congruence|].
    split; [exists r, w; by rewrite He|].
    destruct (check_over_spec (moved g r w d W L)) as [(a & Ha & Heq)|[Hno Heq]];
      rewrite Heq in Ht |- *; [|simpl in Ht; congruence].
    exists a. split; [|done]. revert Ha. by apply sole_owner_same.
  - unfold Game.start_turn in Ht.
    destruct (Game.alive_players g); simpl in Ht; congruence.
  - congruence.
Qed.

(** ** The choice of the challenger *)






(** ** Reading the board *)

Lemma register_get_listed (h : list Player.t) (ps : list nat) (k : Z) :
  k ∈ ids h ps → is_Some (dict_get (Game.register h ps []) k).
Proof.
  intros (j & r & Hr & <- & Hlast)%last_with_id.
  by rewrite (register_get_last h ps [] j r Hr Hlast).
Qed.

Lemma init_bounded (h : list Player.t) (ps : list nat) (nrows ncols : Z) (g : Game.t) :
  (Game.init ps nrows ncols h).1 = Ok g → bounded g.
Proof.
  intros Hg. destruct (init_Ok_inv _ _ _ _ _ Hg) as (Hr & Hc & Hlen).
  pose proof (init_game _ _ _ _ _ Hg)
    as (Hp & Hnr & Hnc & _ & _ & _ & _ & _ & _ & _ & _ & Hgrid & Hdom & Hheap).
  pose proof (length_cells nrows ncols Hr Hc) as Hcells.
  split; unfold owner; rewrite ?Hnr, ?Hnc.
  - done.
  - intros c [i Hi]%list_elem_of_lookup.
    destruct (lookup_lt_is_Some_2 ps i) as [x Hx]; [apply lookup_lt_Some in Hi; lia|].
    exists (Player.id (deref h x)). split; [by apply (Hgrid i)|].
    rewrite Hp. apply register_get_listed.
    apply (list_elem_of_fmap_2 (λ r, Player.id (deref h r))).
    by eapply list_elem_of_lookup_2.
  - intros x c [Hx Hxc].
    destruct (Hheap x) as [[Hnin _]|(i & c' & _ & _ & Hci & Heq)].
    + destruct Hnin. by apply (init_registered h ps nrows ncols g).
    + unfold deref in Hxc. rewrite Heq in Hxc.
      destruct (h !! x); simpl in Hxc; [|by apply elem_of_nil in Hxc].
      apply list_elem_of_singleton in Hxc as ->. by eapply list_elem_of_lookup_2.
Qed.

Lemma bounded_step (g g' : Game.t) : wf g → bounded g → step g g' → bounded g'.
Proof.
  intros Hwf [Hdom Hin Hpos] Hstep.
  destruct Hstep as [|i r cat Hi|a b ca cb cat Hab Ha Hb He|r w d W L Hget Hacc HWL Hw|x|d];
    try done.
  - split; try done. intros x c [Hx Hc]. cbn [Game.heap Game.with_heap] in Hc.
    rewrite (deref_alter_same Player.positions) in Hc by done. by apply (Hpos x).
  - destruct (wf_accepted g d Hwf Hacc) as (ra & rb & Hra & Hrb & Hda & Hdb & _ & _).
    assert (∃ rW rL, rW ∈ dict_values (Game.players g)
                     ∧ rL ∈ dict_values (Game.players g)
                     ∧ deref (Game.heap g) rW = deref (Game.heap g) W
                     ∧ deref (Game.heap g) rL = deref (Game.heap g) L)
      as (rW & rL & HrW & HrL & HdW & HdL).
    { destruct HWL as [[-> ->]|[-> ->]]; [by exists ra, rb|by exists rb, ra]. }
    assert (∀ c, c ∈ Player.positions (deref (Game.heap g) L) →
                 c ∈ Board.cells (Board.nrows (Game.board g)) (Board.ncols (Game.board g)))
      as HposL.
    { intros c Hc. apply (Hpos rL). split; [done|]. by rewrite HdL. }
    destruct (check_over_fields (moved g r w d W L)) as (Hp & Hb & Hh & _).
    assert (Game.players (moved g r w d W L) = Game.players g) as Hp' by done.
    assert (Board.nrows (Game.board (moved g r w d W L)) = Board.nrows (Game.board g)
            ∧ Board.ncols (Game.board (moved g r w d W L)) = Board.ncols (Game.board g))
      as [Hnr Hnc] by done.
    split; unfold owner; rewrite ?Hp, ?Hb, ?Hh, ?Hp', ?Hnr, ?Hnc.
    + intros c Hc. rewrite moved_grid. rewrite decide_False; [by apply Hdom|].
      intros Hc'. by apply Hc, HposL.
    + intros c Hc. rewrite moved_grid. case_decide; [|by apply Hin].
      eexists. split; [done|]. rewrite <- HdW. rewrite (wf_get g rW Hwf HrW). by eexists.
    + intros x c [Hx Hc].
      destruct (moved_deref g r w d W L x) as [(_ & _ & Hnil & _)|[(_ & _ & Heq)|Heq]].
      * rewrite Hnil in Hc. by apply elem_of_nil in Hc.
      * rewrite Heq in Hc. cbn [Player.positions] in Hc.
        apply elem_of_app in Hc as [Hc|Hc]; [by apply (Hpos x)|by apply HposL].
      * rewrite Heq in Hc. by apply (Hpos x).
Qed.

Lemma run_bounded (h : list Player.t) (ps : list nat) (nrows ncols : Z) (g : Game.t)
    (cs : list Call) :
  (Game.init ps nrows ncols h).1 = Ok g → bounded (run g cs).
Proof.
  intros Hg. apply (run_step_ind (λ g, wf g ∧ bounded g)).
  - split; [by eapply init_wf|by eapply init_bounded].
  - intros g1 g2 [Hwf Hb] Hstep. split; [by eapply wf_step|by eapply bounded_step].
Qed.

Lemma init_dims (h : list Player.t) (ps : list nat) (nrows ncols : Z) (g : Game.t)
    (cs : list Call) :
  (Game.init ps nrows ncols h).1 = Ok g →
  Board.nrows (Game.board (run g cs)) = nrows
  ∧ Board.ncols (Game.board (run g cs)) = ncols.
Proof.
  intros Hg. destruct (run_dims g cs) as [-> ->].
  by pose proof (init_game _ _ _ _ _ Hg) as (_ & -> & -> & _).
Qed.

(** The two players of a duel of the history are different objects of the
    store, registered under different ids. *)
Lemma wf_duel (g : Game.t) (i : nat) (d : Duel.t) :
  wf g → live g → Game.duel_history g !! i = Some d →
  ∃ pa pb,
    Game.heap g !! Duel.challenger d = Some pa
    ∧ Game.heap g !! Duel.challenged d = Some pb
    ∧ Player.id pa ≠ Player.id pb
    ∧ Duel.challenger d ≠ Duel.challenged d
    ∧ Duel.challenger d ∈ dict_values (Game.players g)
    ∧ Duel.challenged d ∈ dict_values (Game.players g).
Proof.
  intros Hwf Hlive Hi.
  destruct (wf_own g (Entry i) d Hwf eq_refl Hi) as [Ha Hb].
  destruct (wf_accepted g d Hwf (entry_in_history g i d Hi))
    as (ra & rb & _ & _ & _ & _ & Hids & Hne).
  destruct (live_lookup g _ Hlive Ha) as (pa & Hpa & Hda).
  destruct (live_lookup g _ Hlive Hb) as (pb & Hpb & Hdb).
  exists pa, pb. rewrite Hda, Hdb in Hids. done.
Qed.

(** ** The tests of the repository, replayed

    [tests/test_core.py]: the three tests, with the players and categories
    they use. *)

Lemma test_board_and_positions_and_challenge :
  ∃ g0 g1 g2 g3 duel,
    (Game.init [0; 1] 1 2 [alice; bob]).1 = Ok g0
    ∧ Player.positions (deref (Game.heap g0) 0) = [(0, 0)%Z]
    ∧ Player.positions (deref (Game.heap g0) 1) = [(0, 1)%Z]
    ∧ Game.set_player_expertise 2 sci g0 = (Ok tt, g1)
    ∧ Player.expertise (deref (Game.heap g1) 1) = Some sci
    ∧ Game.challenge 1 2 g1 = (Ok duel, g2)
    ∧ Game.get_duel g2 duel = Some (Duel.mk 0 1 sci None)
    ∧ Game.resolve_duel duel 2 g2 = (Ok tt, g3)
    ∧ Duel.winner_id <$> Game.get_duel g3 duel = Some (Some 2%Z)
    ∧ Player.positions (deref (Game.heap g3) 1) = [(0, 1); (0, 0)]%Z
    ∧ Player.eliminated (deref (Game.heap g3) 0) = true
    ∧ Player.expertise (deref (Game.heap g3) 1)
      = Player.expertise (deref (Game.heap g3) 0).
Proof.
  do 5 eexists. split; [reflexivity|]. do 2 (split; [reflexivity|]).
  split; [reflexivity|]. split; [reflexivity|]. split; [reflexivity|].
  split; [reflexivity|]. split; [reflexivity|]. by vm_compute.
Qed.

Lemma test_invalid_board_size_raises :
  ∃ e, (Game.init [0; 1] 2 2 [alice; bob]).1 = Err e.
Proof. by eexists. Qed.

Lemma test_challenge_without_expertise_raises :
  ∃ g0 e, (Game.init [0; 1] 1 2 [alice; bob]).1 = Ok g0
          ∧ (Game.challenge 1 2 g0).1 = Err e.
Proof. do 2 eexists. split; reflexivity. Qed.

(** ** The claims *)

(** C1, as the code behaves.  Take players with pairwise distinct ids and
    a game built from them, and a sequence of [set_player_expertise],
    [challenge], [resolve_duel] and [start_turn] calls in which every duel
    handed to [resolve_duel] is between [Player] objects of the game, as
    every duel returned by [challenge] is.  After the calls the cells of the
    board are exactly the cells owned by the registered players, no cell has
    two owners, and the grid maps every owned cell to the id of the player
    whose positions contain it. *)
Theorem partition_invariant (h : list Player.t) (ps : list nat) (nrows ncols : Z)
    (g0 : Game.t) (cs : list Call) :
  NoDup (ids h ps) →
  Forall (λ r, r < length h) ps →
  (Game.init ps nrows ncols h).1 = Ok g0 →
  own g0 cs = true →
  partitioned nrows ncols (run g0 cs).
Proof.
  intros Hnd Hall Hg Hown.
  destruct (run_part h ps nrows ncols g0 cs Hnd Hall Hg Hown) as (Hwf & Hlive & Hpart).
  destruct (init_dims h ps nrows ncols g0 cs Hg) as [Hr Hc].
  split; [|split; [|split]].
  - intros r c. by apply part_cover.
  - intros x y c. by apply part_disjoint.
  - intros x. by apply part_positions_NoDup.
  - intros x c. by apply part_grid.
Qed.

(** The invariant on the 1 x 2 board after Bob has beaten Alice. *)
Lemma partition_invariant_witness :
  ∃ g0, (Game.init [0; 1] 1 2 [alice; bob]).1 = Ok g0
        ∧ partitioned 1 2 (run g0 first_duel).
Proof.
  eexists. split; [reflexivity|].
  apply (partition_invariant [alice; bob] [0; 1] 1 2 _ first_duel);
    [| |reflexivity|reflexivity].
  - apply (bool_decide_unpack _). vm_compute. exact I.
  - apply (bool_decide_unpack _). vm_compute. exact I.
Defined.

(** C1 fails as stated.  On the 1 x 2 board Alice challenges Bob, and the
    caller resolves a copy of the duel, made of a copy of Alice and a copy
    of Bob.  The copy is no entry of the history, but it is equal to one
    field by field, and [resolve_duel] accepts it: the cell (0, 0) of the
    copied Alice goes to the copied Bob and the grid maps it to Bob's id,
    while Alice herself still lists (0, 0). *)
Lemma copied_duel_breaks_partition :
  ∃ g0 g g',
    (Game.init [0; 1] 1 2 [alice; bob; alice_copy; bob_copy]).1 = Ok g0
    ∧ g = run g0 [SetPlayerExpertise 2 sci; Challenge 1 2; NewDuel (Duel.mk 2 3 sci None)]
    ∧ deref (Game.heap g) 2 = deref (Game.heap g) 0
    ∧ deref (Game.heap g) 3 = deref (Game.heap g) 1
    ∧ Game.duel_history g = [Duel.mk 0 1 sci None]
    ∧ Game.get_duel g (Outside 0) = Some (Duel.mk 2 3 sci None)
    ∧ Game.resolve_duel (Outside 0) 2 g = (Ok tt, g')
    ∧ g' = run g0 copied_duel
    ∧ owner g' 0 (0, 0)%Z
    ∧ Player.id (deref (Game.heap g') 0) = 1%Z
    ∧ Board._grid (Game.board g') !! (0, 0)%Z = Some (Some 2%Z)
    ∧ ¬ partitioned 1 2 g'.
Proof.
  do 3 eexists. split; [reflexivity|]. split; [reflexivity|].
  do 4 (split; [reflexivity|]). split; [reflexivity|]. split; [reflexivity|].
  match goal with
  | |- owner ?g' _ _ ∧ _ =>
      assert (owner g' 0 (0, 0)%Z) as Hown
        by (split; vm_compute; apply list_elem_of_here)
  end.
  split; [exact Hown|]. split; [reflexivity|]. split; [reflexivity|].
  intros (_ & _ & _ & Hgrid). specialize (Hgrid 0 (0, 0)%Z Hown).
  vm_compute in Hgrid. discriminate.
Qed.

(** C2, as the code behaves.  [Duel.resolve] raises InvalidWinner exactly
    when the winner id is the id of neither participant: a winner already
    recorded on the duel is not looked at.  So [Game.resolve_duel], called
    with a participant's id on a duel of the history that already has a
    winner, succeeds again: it records the new winner, appends every cell of
    the new loser to the new winner's positions and clears the loser's. *)
Theorem resolve_again (h : list Player.t) (ps : list nat) (nrows ncols : Z)
    (g0 : Game.t) (cs : list Call) (i : nat) (d : Duel.t) (w0 w : Z) :
  Forall (λ r, r < length h) ps →
  (Game.init ps nrows ncols h).1 = Ok g0 →
  Game.duel_history (run g0 cs) !! i = Some d →
  Duel.winner_id d = Some w0 →
  let g := run g0 cs in
  let a := Player.id (deref (Game.heap g) (Duel.challenger d)) in
  let b := Player.id (deref (Game.heap g) (Duel.challenged d)) in
  ((Duel.resolve (Game.heap g) w d).1 = Err InvalidWinner ↔ w ≠ a ∧ w ≠ b)
  ∧ (w ≠ a ∧ w ≠ b → Game.resolve_duel (Entry i) w g = (Err InvalidWinner, g))
  ∧ (w = a ∨ w = b →
     let g' := (Game.resolve_duel (Entry i) w g).2 in
     let W := if decide (w = a) then Duel.challenger d else Duel.challenged d in
     let L := if decide (w = a) then Duel.challenged d else Duel.challenger d in
     Duel.resolve (Game.heap g) w d = (Ok tt, Duel.with_winner_id (Some w) d)
     ∧ (Game.resolve_duel (Entry i) w g).1 = Ok tt
     ∧ Game.duel_history g' !! i = Some (Duel.with_winner_id (Some w) d)
     ∧ Player.positions (deref (Game.heap g') W)
       = Player.positions (deref (Game.heap g) W)
         ++ Player.positions (deref (Game.heap g) L)
     ∧ Player.positions (deref (Game.heap g') L) = []).
Proof.
  intros Hall Hg Hi Hw0 g a b. pose proof (run_wf h ps nrows ncols g0 cs Hg) as Hwf.
  pose proof (run_live h ps nrows ncols g0 cs Hall Hg) as Hlive.
  fold g in Hwf, Hlive, Hi.
  destruct (wf_duel g i d Hwf Hlive Hi) as (pa & pb & Hpa & Hpb & Hid & Hne & _).
  pose proof (entry_in_history g i d Hi) as Hin.
  split_and!.
  - unfold Duel.resolve. fold a b. case_decide; simpl; [done|].
    split; [done|]. intros. tauto.
  - intros [Ha Hb]. by apply (resolve_duel_invalid g (Entry i) w d).
  - intros Hab. cbv zeta.
    assert (Duel.resolve (Game.heap g) w d = (Ok tt, Duel.with_winner_id (Some w) d))
      as Hres.
    { unfold Duel.resolve. fold a b. rewrite decide_False; [done|tauto]. }
    split; [done|].
    assert (∀ W L pw pl, W ≠ L → Game.heap g !! W = Some pw → Game.heap g !! L = Some pl →
      Game.resolve_duel (Entry i) w g
      = (Ok tt, Game.check_over (moved g (Entry i) w d W L)) →
      (Game.resolve_duel (Entry i) w g).1 = Ok tt
      ∧ Game.duel_history (Game.resolve_duel (Entry i) w g).2 !! i
        = Some (Duel.with_winner_id (Some w) d)
      ∧ Player.positions (deref (Game.heap (Game.resolve_duel (Entry i) w g).2) W)
        = Player.positions (deref (Game.heap g) W)
          ++ Player.positions (deref (Game.heap g) L)
      ∧ Player.positions (deref (Game.heap (Game.resolve_duel (Entry i) w g).2) L) = [])
      as Hgen.
    { intros W L pw pl HWL HW HL ->. cbn [fst snd].
      destruct (check_over_fields (moved g (Entry i) w d W L)) as (_ & _ & -> & -> & _).
      destruct (moved_positions g (Entry i) w d W L pw pl HWL HW HL) as (-> & -> & _).
      rewrite (deref_lookup _ _ _ HW), (deref_lookup _ _ _ HL).
      split_and!; try done. rewrite moved_history.
      apply list_lookup_insert_eq. by eapply lookup_lt_Some. }
    destruct (decide (w = a)) as [Ha|Ha].
    + apply (Hgen _ _ pa pb); try done. by apply resolve_duel_challenger.
    + apply (Hgen _ _ pb pa); try done. apply resolve_duel_challenged; [done..|].
      fold b. tauto.
Qed.

(** Bob has beaten Alice; resolving the same duel for Alice gives her both
    cells. *)
Lemma resolve_again_witness :
  ∃ g0 g',
    (Game.init [0; 1] 1 2 [alice; bob]).1 = Ok g0
    ∧ g' = (Game.resolve_duel (Entry 0) 1 (run g0 first_duel)).2
    ∧ Player.positions (deref (Game.heap g') 0) = [(0, 1); (0, 0)]%Z
    ∧ Player.positions (deref (Game.heap g') 1) = [].
Proof.
  eexists. eexists. split; [reflexivity|]. split; [reflexivity|].
  assert (Forall (λ r, r < length [alice; bob]) [0; 1]) as Hall
    by (apply (bool_decide_unpack _); vm_compute; exact I).
  pose proof (resolve_again [alice; bob] [0; 1] 1 2 _ first_duel 0
                (Duel.mk 0 1 sci (Some 2%Z)) 2 1 Hall eq_refl eq_refl eq_refl) as H.
  cbv zeta in H. destruct H as (_ & _ & H).
  destruct (H (or_introl eq_refl)) as (_ & _ & _ & HW & HL).
  split; [exact HW|exact HL].
Defined.

(** C2 fails as stated.  On the 1 x 2 board the duel between Alice and Bob
    has been resolved for Bob, so its [winner_id] is set; [Duel.resolve] and
    [Game.resolve_duel] called again on it for Alice return normally, and
    Alice, who owned nothing, owns both cells afterwards. *)
Lemma resolve_twice_succeeds :
  ∃ g0 g d,
    (Game.init [0; 1] 1 2 [alice; bob]).1 = Ok g0
    ∧ g = run g0 first_duel
    ∧ Game.duel_history g !! 0 = Some d
    ∧ Duel.winner_id d = Some 2%Z
    ∧ (Duel.resolve (Game.heap g) 1 d).1 = Ok tt
    ∧ (Game.resolve_duel (Entry 0) 1 g).1 = Ok tt
    ∧ Player.positions (deref (Game.heap g) 0) = []
    ∧ Player.positions (deref (Game.heap (Game.resolve_duel (Entry 0) 1 g).2) 0)
      = [(0, 1); (0, 0)]%Z.
Proof.
  eexists. eexists. eexists. split; [reflexivity|]. split; [reflexivity|].
  split; [reflexivity|]. vm_compute. by repeat split.
Qed.

(** C3, as the code behaves.  In every reachable game a registered player
    without cells is eliminated, that is, a player who is not eliminated
    owns at least one cell.  The converse, and so the equivalence, holds
    when the players start non-eliminated and no duel is resolved in favour
    of a player who is already eliminated. *)
Theorem elimination_consistency (h : list Player.t) (ps : list nat) (nrows ncols : Z)
    (g0 : Game.t) (cs : list Call) :
  Forall (λ r, r < length h) ps →
  (Game.init ps nrows ncols h).1 = Ok g0 →
  let g := run g0 cs in
  (∀ x, x ∈ dict_values (Game.players g) →
        Player.positions (deref (Game.heap g) x) = [] →
        Player.eliminated (deref (Game.heap g) x) = true)
  ∧ (Forall (λ r, Player.eliminated (deref h r) = false) ps → fair g0 cs = true →
     ∀ x, x ∈ dict_values (Game.players g) →
          Player.eliminated (deref (Game.heap g) x) = true
          ↔ Player.positions (deref (Game.heap g) x) = []).
Proof.
  intros Hall Hg g.
  assert (owns g) as Howns.
  { apply (run_step_ind owns); [by eapply init_owns|apply owns_step]. }
  split; [exact Howns|].
  intros Hstart Hfair x Hx. split; [|by apply Howns].
  assert (wf g ∧ cleared g) as [_ Hcl].
  { apply (run_fair_ind (λ g, wf g ∧ cleared g)); [| |done].
    - split; [by eapply init_wf|by eapply init_cleared].
    - intros g1 c [Hwf Hcl] Hc.
      split; [eapply wf_step; [done|apply exec_step]|by apply cleared_exec]. }
  by apply Hcl.
Qed.

(** Alice after losing to Bob: eliminated, and without cells. *)
Lemma elimination_consistency_witness :
  ∃ g0, (Game.init [0; 1] 1 2 [alice; bob]).1 = Ok g0
        ∧ (Player.eliminated (deref (Game.heap (run g0 first_duel)) 0) = true
           ↔ Player.positions (deref (Game.heap (run g0 first_duel)) 0) = []).
Proof.
  eexists. split; [reflexivity|].
  refine (proj2 (elimination_consistency [alice; bob] [0; 1] 1 2 _ first_duel
                   _ eq_refl) _ _ 0 _).
  - apply (bool_decide_unpack _). vm_compute. exact I.
  - by repeat constructor.
  - vm_compute. reflexivity.
  - vm_compute. apply list_elem_of_here.
Defined.

(** C3 fails as stated.  On the 1 x 3 board Alice loses to Bob and is
    eliminated; [challenge] still accepts her as challenger of Carol, and
    when that duel is resolved for Alice she owns the cell (0, 2) while
    [eliminated] stays true. *)
Lemma eliminated_player_owns_cell :
  ∃ g0 g,
    (Game.init [0; 1; 2] 1 3 [alice; bob; carol]).1 = Ok g0
    ∧ g = run g0 eliminated_challenges
    ∧ 0 ∈ dict_values (Game.players g)
    ∧ Player.eliminated (deref (Game.heap g) 0) = true
    ∧ Player.positions (deref (Game.heap g) 0) = [(0, 2)]%Z
    ∧ ¬ (Player.eliminated (deref (Game.heap g) 0) = true
         ↔ Player.positions (deref (Game.heap g) 0) = []).
Proof.
  eexists. eexists. split; [reflexivity|]. split; [reflexivity|].
  vm_compute. split_and!; [apply list_elem_of_here|done|done|].
  intros [H _]. by specialize (H eq_refl).
Qed.

(** C4, as the code behaves.  A game starts with [over] false.  Unless the
    game was built for a single player, every reachable state in which
    exactly one player is not eliminated and owns as many cells as the board
    has, has [over] true and [winner_id] equal to that player's id.  [over]
    turns from false to true only in a successful [resolve_duel] that leaves
    such a player, whose id is stored in [winner_id]; and once [over] is
    true no call makes it false again. *)
Theorem game_over_rule (h : list Player.t) (ps : list nat) (nrows ncols : Z)
    (g0 : Game.t) (cs : list Call) :
  (Game.init ps nrows ncols h).1 = Ok g0 →
  let g := run g0 cs in
  Game.over g0 = false
  ∧ (length ps ≠ 1 → ∀ a, sole_owner g a →
     Game.over g = true
     ∧ Game.winner_id g = Some (Player.id (deref (Game.heap g) a)))
  ∧ (∀ c, Game.over g = false → Game.over (exec g c) = true →
     (∃ r w, c = ResolveDuel r w ∧ (Game.resolve_duel r w g).1 = Ok tt)
     ∧ ∃ a, sole_owner (exec g c) a
            ∧ Game.winner_id (exec g c)
              = Some (Player.id (deref (Game.heap (exec g c)) a)))
  ∧ (∀ c, Game.over g = true → Game.over (exec g c) = true).
Proof.
  intros Hg g. split_and!.
  - by pose proof (init_game _ _ _ _ _ Hg) as (_ & _ & _ & _ & _ & _ & -> & _).
  - intros Hone. apply (run_step_ind over_complete).
    + by eapply init_over_complete.
    + apply over_complete_step.
  - intros c. apply exec_over_rise.
  - intros c. apply step_over_mono, exec_step.
Qed.

(** Bob, sole owner of the 1 x 2 board after beating Alice, is the winner. *)
Lemma game_over_rule_witness :
  ∃ g0, (Game.init [0; 1] 1 2 [alice; bob]).1 = Ok g0
        ∧ Game.over (run g0 first_duel) = true
        ∧ Game.winner_id (run g0 first_duel) = Some 2%Z.
Proof.
  eexists. split; [reflexivity|].
  refine (proj1 (proj2 (game_over_rule [alice; bob] [0; 1] 1 2 _ first_duel eq_refl))
            _ 1 _).
  - simpl. lia.
  - vm_compute. done.
Defined.

(** C4 fails as stated, in both directions.  A 1 x 1 game starts with its
    only player alive and owning the whole board, and [over] is false.  On
    the 1 x 2 board, after the duel has been resolved for Bob and then again
    for Alice, [over] is true and no player is alive. *)
Lemma over_without_sole_owner :
  (∃ g0, (Game.init [0] 1 1 [alice]).1 = Ok g0
         ∧ sole_owner g0 0 ∧ Game.over g0 = false)
  ∧ (∃ g0 g, (Game.init [0; 1] 1 2 [alice; bob]).1 = Ok g0
             ∧ g = run g0 resolved_twice
             ∧ Game.over g = true ∧ Game.alive_players g = []
             ∧ ∀ a, ¬ sole_owner g a).
Proof.
  split.
  - eexists. split; [reflexivity|]. vm_compute. done.
  - eexists. eexists. split; [reflexivity|]. split; [reflexivity|].
    split; [by vm_compute|]. split; [by vm_compute|].
    intros a [Ha _]. vm_compute in Ha. done.
Qed.




(** C6.  [challenge] raises SelfChallenge when the two ids are equal;
    otherwise UnknownPlayer when one of them is not a key of [players];
    otherwise NoExpertiseSet when the challenged player has no expertise;
    otherwise it succeeds whatever else the state is: the history gets one
    more duel, the one returned, between the two players, on the challenged
    player's current expertise and without a winner, and nothing else
    changes. *)
Theorem challenge_rule (g : Game.t) (a b : Z) :
  (a = b → Game.challenge a b g = (Err SelfChallenge, g))
  ∧ (a ≠ b →
     dict_get (Game.players g) a = None ∨ dict_get (Game.players g) b = None →
     Game.challenge a b g = (Err UnknownPlayer, g))
  ∧ (a ≠ b → ∀ ca cb,
     dict_get (Game.players g) a = Some ca → dict_get (Game.players g) b = Some cb →
     Player.expertise (deref (Game.heap g) cb) = None →
     Game.challenge a b g = (Err NoExpertiseSet, g))
  ∧ (a ≠ b → ∀ ca cb cat,
     dict_get (Game.players g) a = Some ca → dict_get (Game.players g) b = Some cb →
     Player.expertise (deref (Game.heap g) cb) = Some cat →
     let duel := Duel.mk ca cb cat None in
     Game.challenge a b g
     = (Ok (Entry (length (Game.duel_history g))),
        Game.with_duel_history (Game.duel_history g ++ [duel]) g)
     ∧ Game.duel_history (Game.challenge a b g).2
         !! length (Game.duel_history g) = Some duel).
Proof.
  unfold Game.challenge. split_and!.
  - intros ->. by rewrite decide_True.
  - intros Hne [Ha|Hb]; rewrite decide_False by done.
    + by rewrite Ha.
    + rewrite Hb. by destruct (dict_get (Game.players g) a).
  - intros Hne ca cb Ha Hb He. rewrite decide_False by done. by rewrite Ha, Hb, He.
  - intros Hne ca cb cat Ha Hb He. rewrite decide_False by done.
    rewrite Ha, Hb, He. split; [done|]. simpl.
    by rewrite lookup_app_r, Nat.sub_diag.
Qed.

(** The four outcomes on the 1 x 2 board. *)
Lemma challenge_rule_witness :
  ∃ g0, (Game.init [0; 1] 1 2 [alice; bob]).1 = Ok g0
        ∧ Game.challenge 1 1 g0 = (Err SelfChallenge, g0)
        ∧ Game.challenge 1 7 g0 = (Err UnknownPlayer, g0)
        ∧ Game.challenge 1 2 g0 = (Err NoExpertiseSet, g0)
        ∧ (Game.challenge 1 2 (run g0 [SetPlayerExpertise 2 sci])).1 = Ok (Entry 0).
Proof.
  eexists. split; [reflexivity|]. split_and!.
  - by apply challenge_rule.
  - apply challenge_rule; [done|]. by right.
  - by apply (proj1 (proj2 (proj2 (challenge_rule _ 1 2))) ltac:(done) 0 1).
  - refine (f_equal fst (proj1 (proj2 (proj2 (proj2 (challenge_rule _ 1 2)))
                                  _ 0 1 sci _ _ _))); done.
Defined.

(** C7, as the code behaves.  With positive dimensions, the construction
    of a game raises exactly when the number of players differs from
    [nrows * ncols], and what it raises is CardinalityMismatch.  When it
    succeeds, the grid maps the cell (i div ncols, i mod ncols) to the id of
    the i-th player of the list, and a player ends owning exactly the cell
    of its last occurrence in the list, otherwise unchanged.  So in a list
    that holds no player object twice the i-th player owns exactly the cell
    (i div ncols, i mod ncols). *)
Theorem init_row_major (h : list Player.t) (ps : list nat) (nrows ncols : Z) :
  (0 < nrows)%Z → (0 < ncols)%Z →
  ((Game.init ps nrows ncols h).1 = Err CardinalityMismatch
   ↔ Z.of_nat (length ps) ≠ (nrows * ncols)%Z)
  ∧ ((∃ e, (Game.init ps nrows ncols h).1 = Err e)
     ↔ Z.of_nat (length ps) ≠ (nrows * ncols)%Z)
  ∧ (Z.of_nat (length ps) = (nrows * ncols)%Z →
     ∃ g, (Game.init ps nrows ncols h).1 = Ok g
          ∧ ∀ i r p, ps !! i = Some r → h !! r = Some p →
              let row := (Z.of_nat i / ncols)%Z in
              let col := (Z.of_nat i mod ncols)%Z in
              Board._grid (Game.board g) !! (row, col) = Some (Some (Player.id p))
              ∧ Board.get_player_at (Game.board g) row col = Ok (Some (Player.id p))
              ∧ ((∀ j, i < j → ps !! j ≠ Some r) →
                 ∃ p', Game.heap g !! r = Some p'
                       ∧ Player.positions p' = [(row, col)]
                       ∧ Player.id p' = Player.id p
                       ∧ Player.name p' = Player.name p
                       ∧ Player.expertise p' = Player.expertise p
                       ∧ Player.eliminated p' = Player.eliminated p)
              ∧ (NoDup ps → Player.positions (deref (Game.heap g) r) = [(row, col)])).
Proof.
  intros Hr Hc.
  destruct (decide (Z.of_nat (length ps) = (nrows * ncols)%Z)) as [Hlen|Hlen].
  - destruct (init_Ok h ps nrows ncols Hr Hc Hlen)
      as (grid & h' & Hinit & _ & Hgrid & _ & Hlast & _).
    rewrite Hinit. cbn [fst]. split; [|split].
    + split; [done|]. intros Hne. by destruct Hne.
    + split; [by intros [e He]|]. intros Hne. by destruct Hne.
    + intros _. eexists. split; [done|]. intros i r p Hi Hp.
      set (row := (Z.of_nat i / ncols)%Z). set (col := (Z.of_nat i mod ncols)%Z).
      cbn [Game.heap Game.board Board._grid].
      assert (Board.cells nrows ncols !! i = Some (row, col)) as Hcell.
      { apply lookup_lt_Some in Hi. apply lookup_cells; lia. }
      assert (grid !! (row, col) = Some (Some (Player.id p))) as Hcellgrid.
      { rewrite (Hgrid i r _ Hi Hcell). by rewrite (deref_lookup _ _ _ Hp). }
      assert ((∀ j, i < j → ps !! j ≠ Some r) →
              h' !! r = Some (Player.with_positions [(row, col)] p)) as Hown.
      { intros Hl. destruct (Hlast i r Hi Hl) as (c & Hci & ->).
        rewrite Hp. simpl. congruence. }
      split_and!.
      * done.
      * unfold Board.get_player_at. cbn [Board._grid]. by rewrite Hcellgrid.
      * intros Hl. eexists. split; [by apply Hown|]. done.
      * intros Hnd. unfold deref. rewrite Hown; [done|].
        intros j Hj Hj'. assert (j = i) by by apply (NoDup_lookup ps j i r). lia.
  - rewrite init_mismatch by done. cbn [fst]. split; [|split]; try done.
    split; [done|]. intros _. by eexists.
Qed.

(** Alice is listed first and last on a 2 x 2 board: the third player gets
    the cell (1, 0), and Alice ends on (1, 1), the cell of her last
    occurrence. *)
Lemma init_row_major_witness :
  ∃ g, (Game.init [0; 1; 2; 0] 2 2 [alice; bob; carol]).1 = Ok g
       ∧ Board._grid (Game.board g) !! (1, 0)%Z = Some (Some 3%Z)
       ∧ (∃ p', Game.heap g !! 2 = Some p' ∧ Player.positions p' = [(1, 0)%Z])
       ∧ (∃ p', Game.heap g !! 0 = Some p' ∧ Player.positions p' = [(1, 1)%Z]).
Proof.
  destruct (init_row_major [alice; bob; carol] [0; 1; 2; 0] 2 2) as (_ & _ & H);
    [lia..|].
  destruct (H eq_refl) as (g & Hg & Hplace). exists g. split; [done|].
  destruct (Hplace 2 2 carol eq_refl eq_refl) as (Hgrid & _ & Hcarol & _).
  destruct (Hplace 3 0 alice eq_refl eq_refl) as (_ & _ & Halice & _).
  split; [exact Hgrid|]. split.
  - destruct Hcarol as (p' & Hp' & Hpos & _).
    { intros [|[|[|[|j]]]] Hj; [lia..|done|done]. }
    by exists p'.
  - destruct Halice as (p' & Hp' & Hpos & _).
    { intros [|[|[|[|j]]]] Hj; [lia..|done]. }
    by exists p'.
Defined.

(** C7 fails as stated.  One player object is listed twice for the 1 x 2
    board.  The construction succeeds and the grid maps both cells to the
    player's id, but the player, who is the player 0 of the list, ends
    owning the cell (0, 1) of index 1 and not the cell (0, 0). *)
Lemma listed_twice_last_cell :
  ∃ g, (Game.init [0; 0] 1 2 [alice]).1 = Ok g
       ∧ [0; 0] !! 0 = Some 0
       ∧ Board._grid (Game.board g) !! (0, 0)%Z = Some (Some 1%Z)
       ∧ Board._grid (Game.board g) !! (0, 1)%Z = Some (Some 1%Z)
       ∧ Player.positions (deref (Game.heap g) 0) = [(0, 1)%Z]
       ∧ Player.positions (deref (Game.heap g) 0)
         ≠ [((Z.of_nat 0 / 2)%Z, (Z.of_nat 0 mod 2)%Z)].
Proof.
  eexists. split; [reflexivity|]. do 4 (split; [reflexivity|]).
  vm_compute. discriminate.
Qed.



(** C9, as the code behaves.  [get_player_at] never raises, on any board.
    On a board that has just been constructed no cell is owned and it
    returns none for all coordinates.  On the board of a game, after any
    sequence of calls, it returns none for coordinates outside the board and
    the id of a registered player for coordinates inside; when the players
    have pairwise distinct ids and every duel resolved is between players of
    the game, that is the id of the player whose positions contain the
    cell. *)
Theorem get_player_at_total :
  (∀ b row col, ∃ o, Board.get_player_at b row col = Ok o)
  ∧ (∀ nrows ncols b row col,
       Board.init nrows ncols = Ok b → Board.get_player_at b row col = Ok None)
  ∧ (∀ h ps nrows ncols g0 cs row col,
       (Game.init ps nrows ncols h).1 = Ok g0 →
       let g := run g0 cs in
       (¬ (0 ≤ row < nrows ∧ 0 ≤ col < ncols)%Z →
        Board.get_player_at (Game.board g) row col = Ok None)
       ∧ ((0 ≤ row < nrows ∧ 0 ≤ col < ncols)%Z →
          ∃ k, Board.get_player_at (Game.board g) row col = Ok (Some k)
               ∧ is_Some (dict_get (Game.players g) k)))
  ∧ (∀ h ps nrows ncols g0 cs row col,
       NoDup (ids h ps) → Forall (λ r, r < length h) ps →
       (Game.init ps nrows ncols h).1 = Ok g0 → own g0 cs = true →
       let g := run g0 cs in
       (0 ≤ row < nrows ∧ 0 ≤ col < ncols)%Z →
       ∃ x, owner g x (row, col)
            ∧ Board.get_player_at (Game.board g) row col
              = Ok (Some (Player.id (deref (Game.heap g) x)))).
Proof.
  split_and!.
  - intros b row col. by eexists.
  - intros nrows ncols b row col. unfold Board.init. case_decide; [done|]. intros [= <-].
    unfold Board.get_player_at. cbn [Board._grid].
    destruct (list_to_map _ !! (row, col)) as [o|] eqn:Ho; [|done].
    apply elem_of_list_to_map_2 in Ho.
    by apply list_elem_of_fmap in Ho as (c & [= _ ->] & _).
  - intros h ps nrows ncols g0 cs row col Hg g.
    destruct (run_bounded h ps nrows ncols g0 cs Hg) as [Hdom Hin _].
    destruct (init_dims h ps nrows ncols g0 cs Hg) as [Hr Hc].
    fold g in Hdom, Hin, Hr, Hc. rewrite Hr, Hc in Hdom, Hin.
    unfold Board.get_player_at. split.
    + intros Hout. rewrite Hdom; [done|]. by rewrite elem_of_cells.
    + intros Hcell. destruct (Hin (row, col)) as (k & -> & Hk);
        [by apply elem_of_cells|]. by exists k.
  - intros h ps nrows ncols g0 cs row col Hnd Hall Hg Hown g Hcell.
    destruct (run_part h ps nrows ncols g0 cs Hnd Hall Hg Hown) as (_ & _ & Hpart).
    destruct (init_dims h ps nrows ncols g0 cs Hg) as [Hr Hc].
    fold g in Hpart, Hr, Hc.
    apply (part_cover nrows ncols g) in Hcell as [x Hx]; [|done..].
    exists x. split; [done|]. unfold Board.get_player_at.
    by rewrite (part_grid g Hpart x _ Hx).
Qed.

(** The cell (5, 5) of a 1 x 2 board, also after a copy of a duel has been
    resolved; and the cell (0, 0) after Bob has beaten Alice. *)
Lemma get_player_at_total_witness :
  (∃ g0, (Game.init [0; 1] 1 2 [alice; bob; alice_copy; bob_copy]).1 = Ok g0
         ∧ Board.get_player_at (Game.board (run g0 copied_duel)) 5 5 = Ok None)
  ∧ (∃ g0 x, (Game.init [0; 1] 1 2 [alice; bob]).1 = Ok g0
             ∧ owner (run g0 first_duel) x (0, 0)%Z
             ∧ Board.get_player_at (Game.board (run g0 first_duel)) 0 0
               = Ok (Some (Player.id (deref (Game.heap (run g0 first_duel)) x)))).
Proof.
  split.
  - eexists. split; [reflexivity|].
    refine (proj1 (proj1 (proj2 (proj2 get_player_at_total))
                     [alice; bob; alice_copy; bob_copy] [0; 1] 1%Z 2%Z _ copied_duel
                     5%Z 5%Z eq_refl) _).
    lia.
  - eexists.
    match goal with
    | |- ∃ x, _ ∧ owner (run ?g ?cs) _ _ ∧ _ =>
        destruct (proj2 (proj2 (proj2 get_player_at_total))
                    [alice; bob] [0; 1] 1%Z 2%Z g cs 0%Z 0%Z) as (x & Hx & Hget)
    end.
    + apply (bool_decide_unpack _). vm_compute. exact I.
    + apply (bool_decide_unpack _). vm_compute. exact I.
    + reflexivity.
    + reflexivity.
    + lia.
    + exists x. split; [reflexivity|]. split; [exact Hx|exact Hget].
Defined.

(** C9 fails as stated.  On a 1 x 2 board the coordinates (5, 5) are out
    of range and [get_player_at] returns none; it does not raise
    OutOfRange. *)
Lemma get_player_at_outside :
  ∃ g0, (Game.init [0; 1] 1 2 [alice; bob]).1 = Ok g0
        ∧ ¬ (0 ≤ 5 < 1 ∧ 0 ≤ 5 < 2)%Z
        ∧ Board.get_player_at (Game.board g0) 5 5 = Ok None
        ∧ Board.get_player_at (Game.board g0) 5 5 ≠ Err OutOfRange.
Proof.
  eexists. split; [reflexivity|]. split; [lia|]. by vm_compute.
Qed.

(** C10.  A call of [set_player_expertise], [challenge] or [resolve_duel]
    that raises leaves the game, its player objects and its duels included,
    exactly as it was; a construction that raises leaves the player objects
    it was given as they were. *)
Theorem failures_are_atomic :
  (∀ i cat g e, (Game.set_player_expertise i cat g).1 = Err e →
                (Game.set_player_expertise i cat g).2 = g)
  ∧ (∀ a b g e, (Game.challenge a b g).1 = Err e → (Game.challenge a b g).2 = g)
  ∧ (∀ r w g e, (Game.resolve_duel r w g).1 = Err e → (Game.resolve_duel r w g).2 = g)
  ∧ (∀ ps nrows ncols h e, (Game.init ps nrows ncols h).1 = Err e →
                           (Game.init ps nrows ncols h).2 = h).
Proof.
  split_and!.
  - intros i cat g e. unfold Game.set_player_expertise.
    by destruct (dict_get (Game.players g) i).
  - intros a b g e. unfold Game.challenge.
    repeat (case_decide || case_match); done.
  - intros r w g e.
    by destruct (resolve_duel_cases g r w)
      as [[e' ->]|(d & W & L & _ & _ & _ & _ & ->)].
  - intros ps nrows ncols h e.
    destruct (decide (Z.of_nat (length ps) = (nrows * ncols)%Z)) as [Hlen|Hlen];
      [|by rewrite init_mismatch].
    destruct (decide (nrows ≤ 0 ∨ ncols ≤ 0)%Z) as [Hdim|Hdim];
      [by rewrite init_dimension|].
    destruct (init_Ok h ps nrows ncols) as (grid & h' & -> & _); [lia..|done].
Qed.

(** A winner who took no part in the duel, and a 2 x 2 board for two
    players. *)
Lemma failures_are_atomic_witness :
  ∃ g0, (Game.init [0; 1] 1 2 [alice; bob]).1 = Ok g0
        ∧ (Game.resolve_duel (Entry 0) 9
             (run g0 [SetPlayerExpertise 2 sci; Challenge 1 2])).2
          = run g0 [SetPlayerExpertise 2 sci; Challenge 1 2]
        ∧ (Game.init [0; 1] 2 2 [alice; bob]).2 = [alice; bob].
Proof.
  eexists. split; [reflexivity|]. split.
  - by apply (proj1 (proj2 (proj2 failures_are_atomic)) (Entry 0) 9%Z _ InvalidWinner).
  - by apply (proj2 (proj2 (proj2 failures_are_atomic)) _ _ _ _ CardinalityMismatch).
Defined.

(** * Further properties of the engine and of its callers *)

(** ** The board on its own *)

(** X1.  [Board.__init__] raises InvalidDimension when a dimension is not
    positive.  Otherwise the board has the dimensions asked for and its grid
    has one entry per cell of the board and no other: every cell inside the
    board is present and unowned, nothing outside is a key, and the number
    of entries is the capacity. *)
Theorem board_init_grid (nrows ncols : Z) :
  ((nrows ≤ 0 ∨ ncols ≤ 0)%Z → Board.init nrows ncols = Err InvalidDimension)
  ∧ ((0 < nrows)%Z → (0 < ncols)%Z →
     ∃ b, Board.init nrows ncols = Ok b
          ∧ Board.nrows b = nrows ∧ Board.ncols b = ncols
          ∧ (∀ r c, (0 ≤ r < nrows ∧ 0 ≤ c < ncols)%Z →
                    Board._grid b !! (r, c) = Some None)
          ∧ (∀ r c, ¬ (0 ≤ r < nrows ∧ 0 ≤ c < ncols)%Z →
                    Board._grid b !! (r, c) = None)
          ∧ Z.of_nat (size (Board._grid b)) = Board.capacity b).
Proof.
  unfold Board.init. split.
  - intros Hdim. by rewrite decide_True.
  - intros Hr Hc. rewrite decide_False by lia. eexists. split; [done|].
    cbn [Board.nrows Board.ncols Board._grid]. unfold Board.capacity.
    cbn [Board.nrows Board.ncols].
    assert (NoDup ((λ c : Z * Z, (c, @None Z)) <$> Board.cells nrows ncols).*1) as Hnd.
    { rewrite <- list_fmap_compose, list_fmap_id. apply NoDup_cells. }
    split_and!; try done.
    + intros r c Hin. apply elem_of_list_to_map; [done|].
      apply list_elem_of_fmap. exists (r, c). split; [done|]. by apply elem_of_cells.
    + intros r c Hout. apply not_elem_of_list_to_map_1.
      rewrite <- list_fmap_compose, list_fmap_id. by rewrite elem_of_cells.
    + rewrite map_size_list_to_map by done. rewrite length_fmap.
      by apply length_cells.
Qed.

Lemma board_init_grid_witness :
  ∃ b, Board.init 2 3 = Ok b ∧ Board._grid b !! (1, 2)%Z = Some None
       ∧ Z.of_nat (size (Board._grid b)) = 6%Z.
Proof.
  destruct (proj2 (board_init_grid 2 3)) as (b & Hb & _ & _ & Hin & _ & Hsize); [lia..|].
  exists b. split; [done|]. split; [apply Hin; lia|].
  rewrite Hsize. unfold Board.init in Hb. simpl in Hb. by injection Hb as <-.
Defined.

(** X2.  [Board.place_players], on any board and any list of players:
    when the length of the list differs from the capacity it raises
    CardinalityMismatch and changes neither the board nor the players.
    Otherwise it returns normally, the iterator is never exhausted; the
    board keeps its dimensions, its grid maps the j-th cell, in row-major
    order, to the id of the j-th player and is unchanged outside the board;
    a listed player owns exactly the cell of its last occurrence in the
    list, whatever it owned before, and keeps its other fields; players that
    are not listed are untouched. *)
Theorem place_players_deal (players : list nat) (b : Board.t) (h : list Player.t) :
  (Z.of_nat (length players) ≠ Board.capacity b →
   Board.place_players players b h = (Err CardinalityMismatch, b, h))
  ∧ (Z.of_nat (length players) = Board.capacity b →
     let cells := Board.cells (Board.nrows b) (Board.ncols b) in
     ∃ b' h',
       Board.place_players players b h = (Ok tt, b', h')
       ∧ Board.nrows b' = Board.nrows b ∧ Board.ncols b' = Board.ncols b
       ∧ length h' = length h
       ∧ (∀ j c r, cells !! j = Some c → players !! j = Some r →
            Board._grid b' !! c = Some (Some (Player.id (deref h r))))
       ∧ (∀ c, c ∉ cells → Board._grid b' !! c = Board._grid b !! c)
       ∧ (∀ j c r p, cells !! j = Some c → players !! j = Some r → h !! r = Some p →
            (∀ j', j < j' → players !! j' ≠ Some r) →
            ∃ p', h' !! r = Some p' ∧ Player.positions p' = [c]
                  ∧ Player.id p' = Player.id p ∧ Player.name p' = Player.name p
                  ∧ Player.expertise p' = Player.expertise p
                  ∧ Player.eliminated p' = Player.eliminated p)
       ∧ (∀ r, r ∉ players → h' !! r = h !! r)).
Proof.
  unfold Board.place_players. split.
  - intros Hne. by rewrite decide_True.
  - intros Heq. set (cells := Board.cells (Board.nrows b) (Board.ncols b)).
    rewrite decide_False by (intros Hne; by destruct Hne).
    assert (length cells ≤ length players) as Hlen.
    { unfold Board.capacity in Heq. subst cells.
      destruct (decide (0 < Board.nrows b ∧ 0 < Board.ncols b)%Z) as [[Hr Hc]|Hn].
      - pose proof (length_cells _ _ Hr Hc). lia.
      - unfold Board.cells.
        destruct (decide (0 < Board.nrows b)%Z) as [Hr|Hr].
        + assert (Board.ncols b ≤ 0)%Z as Hc by lia.
          rewrite (seqZ_nil 0 (Board.ncols b)) by done.
          generalize (seqZ 0 (Board.nrows b)). intros l.
          induction l; simpl; [lia|done].
        + rewrite (seqZ_nil 0 (Board.nrows b)) by lia. simpl. lia. }
    destruct (place_loop players cells (Board._grid b) h 0)
      as (grid' & h' & Hrun & Hlen' & Hout & Hin & Hgout & Hgin); [lia|].
    rewrite Hrun. exists (Board.with_grid grid' b), h'. split_and!; try done.
    + intros j c r Hc Hr. by apply (Hgin (NoDup_cells _ _) j c r).
    + intros j c r p Hc Hr Hp Hlast.
      rewrite (Hin j c r Hc Hr) by (intros j' Hj' _; by apply Hlast).
      rewrite Hp. by eexists.
    + intros r Hr. apply Hout. intros j _ Hj. apply Hr.
      by eapply list_elem_of_lookup_2.
Qed.

(** Bob first, then Alice, on a 1 x 2 board. *)
Lemma place_players_deal_witness :
  ∃ b b' h' p',
    Board.init 1 2 = Ok b
    ∧ Board.place_players [1; 0] b [alice; bob] = (Ok tt, b', h')
    ∧ Board._grid b' !! (0, 0)%Z = Some (Some 2%Z)
    ∧ h' !! 0 = Some p' ∧ Player.positions p' = [(0, 1)%Z].
Proof.
  eexists (Board.mk 1 2 _).
  destruct (proj2 (place_players_deal [1; 0] (Board.mk 1 2
     (list_to_map ((λ c, (c, None)) <$> Board.cells 1 2))) [alice; bob]) eq_refl)
    as (b' & h' & Hrun & _ & _ & _ & Hgrid & _ & Hpos & _).
  destruct (Hpos 1 (0, 1)%Z 0 alice eq_refl eq_refl eq_refl) as (p' & Hp' & Hpos' & _).
  { intros [|[|j']] Hj'; [lia|lia|done]. }
  exists b', h', p'. split; [reflexivity|]. split; [exact Hrun|]. split.
  - exact (Hgrid 0 (0, 0)%Z 1 eq_refl eq_refl).
  - split; [exact Hp'|exact Hpos'].
Defined.

(** ** Construction, in full *)

(** X3.  The three outcomes of [Game.__init__].  A player count different
    from [nrows * ncols] gives CardinalityMismatch, also when a dimension is
    not positive; a matching count with a non-positive dimension gives
    InvalidDimension; in both cases the players are left as they were.
    Otherwise the game is built: no duel, not over, no winner, no turn
    challenger, and every player object keeps its id, name, expertise and
    eliminated flag; a listed player owns one cell, also when it is listed
    twice, and any other object keeps its positions. *)
Theorem init_outcome (h : list Player.t) (ps : list nat) (nrows ncols : Z) :
  (Z.of_nat (length ps) ≠ (nrows * ncols)%Z →
   Game.init ps nrows ncols h = (Err CardinalityMismatch, h))
  ∧ (Z.of_nat (length ps) = (nrows * ncols)%Z → (nrows ≤ 0 ∨ ncols ≤ 0)%Z →
     Game.init ps nrows ncols h = (Err InvalidDimension, h))
  ∧ (Z.of_nat (length ps) = (nrows * ncols)%Z → (0 < nrows)%Z → (0 < ncols)%Z →
     ∃ g, (Game.init ps nrows ncols h).1 = Ok g
          ∧ (Game.init ps nrows ncols h).2 = Game.heap g
          ∧ Game.duel_history g = [] ∧ Game.over g = false
          ∧ Game.winner_id g = None ∧ Game.turn_challenger_id g = None
          ∧ Game.nrows g = nrows ∧ Game.ncols g = ncols
          ∧ Board.nrows (Game.board g) = nrows ∧ Board.ncols (Game.board g) = ncols
          ∧ length (Game.heap g) = length h
          ∧ ∀ r p, h !! r = Some p →
              ∃ p', Game.heap g !! r = Some p'
                    ∧ Player.id p' = Player.id p ∧ Player.name p' = Player.name p
                    ∧ Player.expertise p' = Player.expertise p
                    ∧ Player.eliminated p' = Player.eliminated p
                    ∧ (r ∈ ps → length (Player.positions p') = 1)
                    ∧ (r ∉ ps → Player.positions p' = Player.positions p)).
Proof.
  split_and!.
  - apply init_mismatch.
  - apply init_dimension.
  - intros Hlen Hr Hc.
    destruct (init_Ok h ps nrows ncols Hr Hc Hlen)
      as (grid & h' & Hinit & Hlen' & _ & _ & Hlast & Hout).
    rewrite Hinit. eexists. split; [done|]. cbn. split_and!; try done.
    intros r p Hp. destruct (decide (r ∈ ps)) as [Hin|Hnin].
    + destruct (last_occurrence ps r Hin) as (i & Hi & Hl).
      destruct (Hlast i r Hi Hl) as (c & _ & Heq). rewrite Heq, Hp.
      eexists. split; [done|]. done.
    + rewrite (Hout r Hnin), Hp. eexists. split; [done|]. done.
Qed.

Lemma init_outcome_witness :
  Game.init [] 0 5 [alice] = (Err InvalidDimension, [alice])
  ∧ Game.init [0; 1] (-1) (-2) [alice; bob] = (Err InvalidDimension, [alice; bob])
  ∧ Game.init [0] 1 2 [alice] = (Err CardinalityMismatch, [alice]).
Proof.
  split_and!.
  - apply (proj1 (proj2 (init_outcome [alice] [] 0 5))); [done|lia].
  - apply (proj1 (proj2 (init_outcome [alice; bob] [0; 1] (-1) (-2)))); [done|lia].
  - apply (proj1 (init_outcome [alice] [0] 1 2)). done.
Defined.

(** ** The registry of players *)

(** X4.  The registry never changes and follows the dictionary
    comprehension of the constructor: in every reachable game an id is
    unknown exactly when no constructor player carries it, an id carried by
    several players leads to the last of them, and [set_player_expertise]
    raises UnknownPlayer exactly for the ids no constructor player carries. *)
Theorem registry_fixed (h : list Player.t) (ps : list nat) (nrows ncols : Z)
    (g0 : Game.t) (cs : list Call) :
  (Game.init ps nrows ncols h).1 = Ok g0 →
  let g := run g0 cs in
  (∀ k, dict_get (Game.players g) k = None ↔ k ∉ ids h ps)
  ∧ (∀ i r, ps !! i = Some r →
       (∀ j r', i < j → ps !! j = Some r' →
                Player.id (deref h r') ≠ Player.id (deref h r)) →
       dict_get (Game.players g) (Player.id (deref h r)) = Some r)
  ∧ (∀ k cat, (Game.set_player_expertise k cat g).1 = Err UnknownPlayer
              ↔ k ∉ ids h ps).
Proof.
  intros Hg g.
  assert (Game.players g = Game.register h ps []) as Hreg.
  { unfold g. rewrite run_players. by pose proof (init_game _ _ _ _ _ Hg) as (-> & _). }
  assert (∀ k, dict_get (Game.players g) k = None ↔ k ∉ ids h ps) as Hnone.
  { intros k. rewrite Hreg. split.
    - intros Hget Hin. apply register_get_listed in Hin as [x Hx]. congruence.
    - intros Hk. by rewrite register_get_other. }
  split_and!.
  - done.
  - intros i r Hr Hlast. rewrite Hreg. by apply (register_get_last h ps [] i r).
  - intros k cat. rewrite <- Hnone. unfold Game.set_player_expertise.
    by destruct (dict_get (Game.players g) k).
Qed.

Lemma registry_fixed_witness :
  ∃ g0, (Game.init [0; 1] 1 2 [alice; Player.mk 1 "Alice2" None [] false]).1 = Ok g0
        ∧ dict_get (Game.players (run g0 [StartTurn 0])) 1 = Some 1.
Proof.
  eexists. split; [reflexivity|].
  refine (proj1 (proj2 (registry_fixed [alice; Player.mk 1 "Alice2" None [] false]
                          [0; 1] 1 2 _ [StartTurn 0] eq_refl)) 1 1 eq_refl _).
  intros [|[|j]] q Hj Hq; [lia|lia|done].
Defined.

(** ** What no call undoes *)

Lemma deref_alter_rel (R : Player.t → Player.t → Prop) (f : Player.t → Player.t)
    (x r : nat) (h : list Player.t) :
  (∀ p, R p p) → (∀ p, R p (f p)) → R (deref h r) (deref (alter f x h) r).
Proof.
  intros Hrefl Hf. unfold deref. rewrite list_lookup_alter.
  case_decide; subst; [|done]. destruct (h !! r); simpl; auto.
Qed.

Lemma filter_sublist_mono {A : Type} (P Q : A → Prop) `{!∀ x, Decision (P x)}
    `{!∀ x, Decision (Q x)} (l : list A) :
  (∀ x, P x → Q x) → filter P l `sublist_of` filter Q l.
Proof.
  intros HPQ. induction l as [|x l IH]; [done|].
  rewrite !filter_cons. destruct (decide (P x)) as [HP|HP].
  - rewrite decide_True by auto. by constructor.
  - destruct (decide (Q x)); [by constructor|done].
Qed.

(** X5.  From any state and through any sequence of calls: a player
    object keeps its id and its name, an eliminated player stays eliminated,
    the non-eliminated players of the later state are a sublist of those of
    the earlier one, and the registry and the dimensions of the board stay
    the same. *)
Theorem elimination_permanent (g : Game.t) (cs : list Call) :
  (∀ r, Player.id (deref (Game.heap (run g cs)) r) = Player.id (deref (Game.heap g) r)
        ∧ Player.name (deref (Game.heap (run g cs)) r)
          = Player.name (deref (Game.heap g) r)
        ∧ (Player.eliminated (deref (Game.heap g) r) = true →
           Player.eliminated (deref (Game.heap (run g cs)) r) = true))
  ∧ Game.alive_players (run g cs) `sublist_of` Game.alive_players g
  ∧ Game.players (run g cs) = Game.players g
  ∧ Board.nrows (Game.board (run g cs)) = Board.nrows (Game.board g)
  ∧ Board.ncols (Game.board (run g cs)) = Board.ncols (Game.board g).
Proof.
  set (R := λ p p' : Player.t,
         Player.id p' = Player.id p ∧ Player.name p' = Player.name p
         ∧ (Player.eliminated p = true → Player.eliminated p' = true)).
  assert (∀ p, R p p) as Hrefl by done.
  assert (∀ p q s, R p q → R q s → R p s) as Htrans.
  { intros p q s (? & ? & ?) (? & ? & ?). unfold R. split_and!; [congruence..|auto]. }
  assert (∀ r, R (deref (Game.heap g) r) (deref (Game.heap (run g cs)) r)
          ) as Hheap.
  { apply (run_step_ind (λ g', ∀ r, R (deref (Game.heap g) r) (deref (Game.heap g') r)));
      [done|].
    intros g1 g2 IH Hstep r. apply (Htrans _ _ _ (IH r)). clear IH.
    destruct Hstep as [|i x cat Hi|a b ca cb cat Hab Ha Hb He|r' w d W L Hget Hin HWL Hw|x|d];
      try done.
    - cbn [Game.heap Game.with_heap]. by apply (deref_alter_rel R).
    - destruct (check_over_fields (moved g1 r' w d W L)) as (_ & _ & -> & _).
      cbn [moved Game.heap].
      eapply Htrans; [|by apply (deref_alter_rel R)]. by apply (deref_alter_rel R). }
  destruct (run_dims g cs) as [Hr Hc].
  split_and!; try done.
  - unfold Game.alive_players. rewrite run_players.
    apply filter_sublist_mono. intros r Hal.
    destruct (Hheap r) as (_ & _ & Hel).
    destruct (Player.eliminated (deref (Game.heap g) r)); [|done].
    by rewrite Hel in Hal.
  - apply run_players.
Qed.

(** X6.  The history only grows.  A duel found at an index of the history
    is still at that index after any sequence of calls, with the same
    challenger, challenged player and category (so later changes of
    expertise do not reach into existing duels), and if it had a winner it
    still has one. *)
Theorem history_append_only (g : Game.t) (cs : list Call) (i : nat) (d : Duel.t) :
  Game.duel_history g !! i = Some d →
  ∃ d', Game.duel_history (run g cs) !! i = Some d'
        ∧ Duel.challenger d' = Duel.challenger d
        ∧ Duel.challenged d' = Duel.challenged d
        ∧ Duel.category d' = Duel.category d
        ∧ (is_Some (Duel.winner_id d) → is_Some (Duel.winner_id d')).
Proof.
  revert i d.
  apply (run_step_ind (λ g', ∀ i d, Game.duel_history g !! i = Some d →
    ∃ d', Game.duel_history g' !! i = Some d'
          ∧ Duel.challenger d' = Duel.challenger d
          ∧ Duel.challenged d' = Duel.challenged d
          ∧ Duel.category d' = Duel.category d
          ∧ (is_Some (Duel.winner_id d) → is_Some (Duel.winner_id d')))).
  { intros i d Hd. by exists d. }
  intros g1 g2 IH Hstep i d Hd. destruct (IH i d Hd) as (d1 & Hd1 & Ha & Hb & Hc & Hw).
  destruct Hstep as [|j x cat Hj|a b ca cb cat Hab Hga Hgb He|r w dj W L Hj Hin HWL Hwj|x|d2];
    try by exists d1.
  - exists d1. split; [|done]. cbn. by apply lookup_app_l_Some.
  - destruct (check_over_fields (moved g1 r w dj W L)) as (_ & _ & _ & -> & _).
    rewrite moved_history. destruct r as [j|k]; [|by exists d1]. simpl in Hj.
    destruct (decide (j = i)) as [->|Hne].
    + assert (dj = d1) as -> by congruence.
      exists (Duel.with_winner_id (Some w) d1). split_and!; try done.
      apply list_lookup_insert_eq. by eapply lookup_lt_Some.
    + exists d1. split; [|done]. by rewrite list_lookup_insert_ne.
Qed.

Lemma history_append_only_witness :
  ∃ g0, (Game.init [0; 1] 1 2 [alice; bob]).1 = Ok g0
    ∧ ∃ d', Game.duel_history
              (run (run g0 [SetPlayerExpertise 2 sci; Challenge 1 2])
                 [SetPlayerExpertise 2 hist; Challenge 1 2; ResolveDuel (Entry 0) 1]) !! 0
            = Some d'
            ∧ Duel.category d' = sci.
Proof.
  eexists. split; [reflexivity|].
  match goal with
  | |- ∃ d', Game.duel_history (run ?g ?cs) !! _ = _ ∧ _ =>
      destruct (history_append_only g cs 0 (Duel.mk 0 1 sci None) eq_refl)
        as (d' & Hd' & _ & _ & Hcat & _)
  end.
  exists d'. split; [exact Hd'|exact Hcat].
Defined.

(** ** Positions and the grid *)

(** X7.  The primary position of a player who is not eliminated is always
    the cell the constructor gave it, however many cells the player has won
    since and whatever duels have been resolved: the cell
    (i div ncols, i mod ncols) for the player whose last occurrence in the
    constructor's list is at index i. *)
Theorem primary_position_is_start (h : list Player.t) (ps : list nat) (nrows ncols : Z)
    (g0 : Game.t) (cs : list Call) (i r : nat) :
  (Game.init ps nrows ncols h).1 = Ok g0 →
  ps !! i = Some r → r < length h → (∀ j, i < j → ps !! j ≠ Some r) →
  Player.eliminated (deref (Game.heap (run g0 cs)) r) = false →
  Board.get_player_position (Game.heap (run g0 cs)) r
  = Some ((Z.of_nat i / ncols)%Z, (Z.of_nat i mod ncols)%Z).
Proof.
  intros Hg Hi Hlt Hlast.
  set (cell := ((Z.of_nat i / ncols)%Z, (Z.of_nat i mod ncols)%Z)).
  assert (Player.eliminated (deref (Game.heap (run g0 cs)) r) = false →
          ∃ rest, Player.positions (deref (Game.heap (run g0 cs)) r) = cell :: rest)
    as Hpos.
  { apply (run_step_ind (λ g, Player.eliminated (deref (Game.heap g) r) = false →
             ∃ rest, Player.positions (deref (Game.heap g) r) = cell :: rest)).
    - intros _. destruct (init_Ok_inv _ _ _ _ _ Hg) as (Hr & Hc & Hlen).
      destruct (init_Ok h ps nrows ncols Hr Hc Hlen)
        as (grid & h' & Hinit & _ & _ & _ & Hplace & _).
      rewrite Hinit in Hg. injection Hg as <-. cbn [Game.heap].
      destruct (Hplace i r Hi Hlast) as (c & Hci & Heq).
      apply lookup_lt_Some in Hi as Hilt.
      rewrite lookup_cells in Hci by lia. injection Hci as <-.
      destruct (lookup_lt_is_Some_2 h r Hlt) as [p Hp].
      exists []. unfold deref. by rewrite Heq, Hp.
    - intros g1 g2 IH Hstep.
      destruct Hstep as [|k x cat Hk|a b ca cb cat Hab Ha Hb He|r' w d W L Hget Hin HWL Hw|x|d];
        try done.
      + cbn [Game.heap Game.with_heap].
        rewrite (deref_alter_same Player.positions), (deref_alter_same Player.eliminated)
          by done.
        done.
      + destruct (check_over_fields (moved g1 r' w d W L)) as (_ & _ & -> & _).
        destruct (moved_deref g1 r' w d W L r) as [(_ & Hel & _)|[(_ & _ & Heq)|Heq]].
        * intros Hal. congruence.
        * rewrite Heq. cbn [Player.positions Player.eliminated].
          intros Hal. destruct (IH Hal) as [rest ->]. by eexists.
        * by rewrite Heq. }
  intros Hal. unfold Board.get_player_position, Player.primary_position.
  by destruct (Hpos Hal) as [rest ->].
Qed.

(** Bob, after beating Alice; and Alice, listed twice on a 1 x 3 board. *)
Lemma primary_position_is_start_witness :
  (∃ g0, (Game.init [0; 1] 1 2 [alice; bob]).1 = Ok g0
         ∧ Board.get_player_position (Game.heap (run g0 first_duel)) 1 = Some (0, 1)%Z)
  ∧ (∃ g0, (Game.init [0; 1; 0] 1 3 [alice; bob]).1 = Ok g0
           ∧ Board.get_player_position (Game.heap g0) 0 = Some (0, 2)%Z).
Proof.
  split.
  - eexists. split; [reflexivity|].
    apply (primary_position_is_start [alice; bob] [0; 1] 1 2 _ first_duel 1 1 eq_refl);
      [reflexivity|simpl; lia| |reflexivity].
    intros [|[|j]] Hj; [lia..|done].
  - eexists. split; [reflexivity|].
    apply (primary_position_is_start [alice; bob] [0; 1; 0] 1 3 _ [] 2 0 eq_refl);
      [reflexivity|simpl; lia| |reflexivity].
    intros [|[|[|j]]] Hj; [lia..|done].
Defined.

(** X8.  The grid and the positions are inverse to each other.  Take
    players with pairwise distinct ids and calls in which every duel
    resolved is between players of the game.  Then [get_player_at] returns
    the id k for a cell exactly when the player registered under k has that
    cell among its positions; in particular looking up a player's primary
    position in the grid gives back that player's id. *)
Theorem grid_inverts_positions (h : list Player.t) (ps : list nat) (nrows ncols : Z)
    (g0 : Game.t) (cs : list Call) :
  NoDup (ids h ps) →
  Forall (λ r, r < length h) ps →
  (Game.init ps nrows ncols h).1 = Ok g0 →
  own g0 cs = true →
  let g := run g0 cs in
  (∀ row col k,
     Board.get_player_at (Game.board g) row col = Ok (Some k)
     ↔ ∃ x, dict_get (Game.players g) k = Some x
            ∧ (row, col) ∈ Player.positions (deref (Game.heap g) x))
  ∧ (∀ x row col, x ∈ dict_values (Game.players g) →
       Board.get_player_position (Game.heap g) x = Some (row, col) →
       Board.get_player_at (Game.board g) row col
       = Ok (Some (Player.id (deref (Game.heap g) x)))).
Proof.
  intros Hnd Hall Hg Hown g.
  destruct (run_part h ps nrows ncols g0 cs Hnd Hall Hg Hown) as (Hwf & _ & Hpart).
  destruct (init_dims h ps nrows ncols g0 cs Hg) as [Hr Hc].
  fold g in Hwf, Hpart, Hr, Hc.
  split.
  - intros row col k. unfold Board.get_player_at. split.
    + intros Hget.
      destruct (decide (0 ≤ row < nrows ∧ 0 ≤ col < ncols)%Z) as [Hin|Hout].
      * apply (part_cover nrows ncols g) in Hin as [x Hx]; [|done..].
        rewrite (part_grid g Hpart x _ Hx) in Hget. simpl in Hget.
        injection Hget as <-. exists x. destruct Hx as [Hv Hpos]. split; [|done].
        by apply wf_get.
      * rewrite (part_dom g Hpart) in Hget; [done|].
        rewrite Hr, Hc. by rewrite elem_of_cells.
    + intros (x & Hget & Hpos). apply dict_get_Some_elem in Hget.
      assert (owner g x (row, col)) as Hx by (split; [by eapply elem_of_values|done]).
      rewrite (part_grid g Hpart x _ Hx). by rewrite (wf_refs g Hwf k x Hget).
  - intros x row col Hv Hprim. unfold Board.get_player_at.
    assert (owner g x (row, col)) as Hx.
    { split; [done|]. unfold Board.get_player_position, Player.primary_position in Hprim.
      destruct (Player.positions (deref (Game.heap g) x)); [done|].
      injection Hprim as ->. apply list_elem_of_here. }
    by rewrite (part_grid g Hpart x _ Hx).
Qed.

Lemma grid_inverts_positions_witness :
  ∃ g0, (Game.init [0; 1] 1 2 [alice; bob]).1 = Ok g0
        ∧ Board.get_player_at (Game.board (run g0 first_duel)) 0 0 = Ok (Some 2%Z).
Proof.
  eexists. split; [reflexivity|].
  refine (proj2 (proj1 (grid_inverts_positions [alice; bob] [0; 1] 1 2 _ first_duel
                          _ _ eq_refl eq_refl) 0%Z 0%Z 2%Z) _).
  - apply (bool_decide_unpack _). vm_compute. exact I.
  - apply (bool_decide_unpack _). vm_compute. exact I.
  - exists 1. split; [reflexivity|]. vm_compute. apply list_elem_of_further, list_elem_of_here.
Defined.

Lemma sum_list_lengths {A : Type} (ll : list (list A)) :
  sum_list (length <$> ll) = length (mjoin ll).
Proof.
  induction ll as [|l ll IH]; [done|].
  change (length l + sum_list (length <$> ll) = length (l ++ mjoin ll)).
  by rewrite length_app, IH.
Qed.

(** X14.  Take players with pairwise distinct ids and calls in which every
    duel resolved is between players of the game.  Then the numbers of cells
    owned by the registered players add up to the capacity of the board,
    which is [nrows * ncols]. *)
Theorem cell_counts_add_up (h : list Player.t) (ps : list nat) (nrows ncols : Z)
    (g0 : Game.t) (cs : list Call) :
  NoDup (ids h ps) →
  Forall (λ r, r < length h) ps →
  (Game.init ps nrows ncols h).1 = Ok g0 →
  own g0 cs = true →
  let g := run g0 cs in
  Z.of_nat (sum_list ((λ x, length (Player.positions (deref (Game.heap g) x)))
                        <$> dict_values (Game.players g)))
  = Board.capacity (Game.board g)
  ∧ Board.capacity (Game.board g) = (nrows * ncols)%Z.
Proof.
  intros Hnd Hall Hg Hown g.
  destruct (run_part h ps nrows ncols g0 cs Hnd Hall Hg Hown) as (_ & _ & Hpart).
  destruct (init_dims h ps nrows ncols g0 cs Hg) as [Hr Hc]. fold g in Hpart, Hr, Hc.
  destruct (init_Ok_inv _ _ _ _ _ Hg) as (Hrp & Hcp & _).
  unfold Board.capacity. rewrite Hr, Hc. split; [|done].
  change (λ x, length (Player.positions (deref (Game.heap g) x)))
    with (length ∘ (λ x, Player.positions (deref (Game.heap g) x))).
  rewrite list_fmap_compose, sum_list_lengths, (part_perm g Hpart), Hr, Hc.
  by apply length_cells.
Qed.

Lemma cell_counts_add_up_witness :
  ∃ g0, (Game.init [0; 1; 2] 1 3 [alice; bob; carol]).1 = Ok g0
        ∧ Z.of_nat (sum_list
            ((λ x, length (Player.positions
                             (deref (Game.heap (run g0 eliminated_challenges)) x)))
               <$> dict_values (Game.players (run g0 eliminated_challenges))))
          = 3%Z.
Proof.
  eexists. split; [reflexivity|].
  refine (eq_trans (proj1 (cell_counts_add_up [alice; bob; carol] [0; 1; 2] 1 3 _
                             eliminated_challenges _ _ eq_refl eq_refl)) _).
  - apply (bool_decide_unpack _). vm_compute. exact I.
  - apply (bool_decide_unpack _). vm_compute. exact I.
  - reflexivity.
Defined.

(** ** Duels *)

(** X9.  The accessors of a duel.  On a duel without winner, [winner]
    returns none and [loser] returns the challenger.  After a successful
    [resolve_duel] with the id w, [winner] and [loser] of the duel are its
    two participants, in one order or the other, [winner] is the one whose
    id is w, and [loser] is eliminated and owns no cell. *)
Theorem duel_accessors (h : list Player.t) (ps : list nat) (nrows ncols : Z)
    (g0 : Game.t) (cs : list Call) (i : nat) (w : Z) (d : Duel.t) :
  Forall (λ r, r < length h) ps →
  (Game.init ps nrows ncols h).1 = Ok g0 →
  Game.duel_history (run g0 cs) !! i = Some d →
  (Game.resolve_duel (Entry i) w (run g0 cs)).1 = Ok tt →
  let g := run g0 cs in
  let g' := (Game.resolve_duel (Entry i) w g).2 in
  (Duel.winner_id d = None →
   Duel.winner (Game.heap g) d = None ∧ Duel.loser (Game.heap g) d = Duel.challenger d)
  ∧ ∃ d' x y,
      Game.duel_history g' !! i = Some d'
      ∧ Duel.winner (Game.heap g') d' = Some x
      ∧ Duel.loser (Game.heap g') d' = y
      ∧ x ≠ y
      ∧ ((x = Duel.challenger d ∧ y = Duel.challenged d)
         ∨ (x = Duel.challenged d ∧ y = Duel.challenger d))
      ∧ Player.id (deref (Game.heap g') x) = w
      ∧ Player.eliminated (deref (Game.heap g') y) = true
      ∧ Player.positions (deref (Game.heap g') y) = [].
Proof.
  intros Hall Hg Hi Hok g g'. pose proof (run_wf h ps nrows ncols g0 cs Hg) as Hwf.
  pose proof (run_live h ps nrows ncols g0 cs Hall Hg) as Hlive.
  fold g in Hwf, Hlive, Hi, Hok. split.
  { intros Hnone. unfold Duel.winner, Duel.loser. rewrite Hnone.
    split; [done|]. by rewrite decide_False. }
  destruct (wf_duel g i d Hwf Hlive Hi) as (pa & pb & Hpa & Hpb & Hid & Hne & _).
  unfold g'.
  destruct (resolve_duel_cases g (Entry i) w)
    as [[e He]|(d1 & W & L & Hi1 & _ & HWL & Hw & He)];
    rewrite He in Hok |- *; simpl in Hok; [done|]. cbn [snd].
  simpl in Hi1. assert (d1 = d) as -> by congruence.
  assert (∃ pw pl, W ≠ L ∧ Game.heap g !! W = Some pw ∧ Game.heap g !! L = Some pl)
    as (pw & pl & HneWL & HW & HL).
  { destruct HWL as [[-> ->]|[-> ->]]; [by exists pa, pb|by exists pb, pa]. }
  destruct (check_over_fields (moved g (Entry i) w d W L)) as (_ & _ & -> & -> & _).
  pose proof (moved_ids g (Entry i) w d W L) as Hids.
  exists (Duel.with_winner_id (Some w) d), W, L.
  assert (Player.id (deref (Game.heap g) (Duel.challenger d))
          ≠ Player.id (deref (Game.heap g) (Duel.challenged d))) as Hid'.
  { by rewrite (deref_lookup _ _ _ Hpa), (deref_lookup _ _ _ Hpb). }
  destruct (moved_positions g (Entry i) w d W L pw pl HneWL HW HL)
    as (_ & HposL & HelL & _).
  split_and!.
  - rewrite moved_history. apply list_lookup_insert_eq. by eapply lookup_lt_Some.
  - unfold Duel.winner. cbn [Duel.winner_id Duel.with_winner_id Duel.challenger
                             Duel.challenged]. rewrite Hids. f_equal.
    destruct HWL as [[-> ->]|[-> ->]].
    + by rewrite decide_True.
    + rewrite decide_False; [done|]. rewrite Hw. congruence.
  - unfold Duel.loser. cbn [Duel.winner_id Duel.with_winner_id Duel.challenger
                            Duel.challenged]. rewrite Hids.
    destruct HWL as [[-> ->]|[-> ->]].
    + rewrite decide_True; [done|]. by rewrite Hw.
    + rewrite decide_False; [done|]. rewrite Hw. congruence.
  - done.
  - done.
  - by rewrite Hids.
  - done.
  - done.
Qed.

Lemma duel_accessors_witness :
  ∃ g0, (Game.init [0; 1] 1 2 [alice; bob]).1 = Ok g0
    ∧ ∃ d', Game.duel_history
              (Game.resolve_duel (Entry 0) 2
                 (run g0 [SetPlayerExpertise 2 sci; Challenge 1 2])).2 !! 0 = Some d'
            ∧ Duel.winner
                (Game.heap (Game.resolve_duel (Entry 0) 2
                              (run g0 [SetPlayerExpertise 2 sci; Challenge 1 2])).2) d'
              = Some 1.
Proof.
  eexists. split; [reflexivity|].
  assert (Forall (λ r, r < length [alice; bob]) [0; 1]) as Hall
    by (apply (bool_decide_unpack _); vm_compute; exact I).
  destruct (proj2 (duel_accessors [alice; bob] [0; 1] 1 2 _
                     [SetPlayerExpertise 2 sci; Challenge 1 2] 0 2
                     (Duel.mk 0 1 sci None) Hall eq_refl eq_refl eq_refl))
    as (d' & x & y & Hd' & Hwin & _ & _ & [[Hx _]|[Hx _]] & Hid & _).
  - exfalso. rewrite Hx in Hid. vm_compute in Hid. discriminate.
  - exists d'. split; [exact Hd'|]. rewrite Hwin, Hx. reflexivity.
Defined.

(** X10.  A duel made by [challenge] in a reachable game is the last of
    the history, and it can be resolved for either of the two ids the
    challenge was issued with; for any other id [resolve_duel] raises
    InvalidWinner and changes nothing. *)
Theorem fresh_duel_resolvable (h : list Player.t) (ps : list nat) (nrows ncols : Z)
    (g0 : Game.t) (cs : list Call) (a b : Z) (r : duel_ref) :
  (Game.init ps nrows ncols h).1 = Ok g0 →
  (Game.challenge a b (run g0 cs)).1 = Ok r →
  let g1 := (Game.challenge a b (run g0 cs)).2 in
  r = Entry (length (Game.duel_history (run g0 cs)))
  ∧ length (Game.duel_history g1) = S (length (Game.duel_history (run g0 cs)))
  ∧ ∀ w, (w = a ∨ w = b → (Game.resolve_duel r w g1).1 = Ok tt)
         ∧ (w ≠ a → w ≠ b → Game.resolve_duel r w g1 = (Err InvalidWinner, g1)).
Proof.
  intros Hg Hch g1. pose proof (run_wf h ps nrows ncols g0 cs Hg) as Hwf.
  set (g := run g0 cs) in *. unfold g1. clear g1. revert Hch.
  unfold Game.challenge. destruct (decide (a = b)) as [|Hab]; [done|].
  destruct (dict_get (Game.players g) a) as [ca|] eqn:Ha; [|done].
  destruct (dict_get (Game.players g) b) as [cb|] eqn:Hb; [|done].
  destruct (Player.expertise (deref (Game.heap g) cb)) as [cat|] eqn:He; [|done].
  cbn [fst snd]. intros [= <-]. split; [done|].
  split; [cbn; rewrite length_app; simpl; lia|].
  apply dict_get_Some_elem in Ha, Hb.
  pose proof (wf_refs g Hwf a ca Ha) as Hida.
  pose proof (wf_refs g Hwf b cb Hb) as Hidb.
  set (g1 := Game.with_duel_history _ g).
  assert (Game.get_duel g1 (Entry (length (Game.duel_history g)))
          = Some (Duel.mk ca cb cat None)) as Hd.
  { cbn. by rewrite lookup_app_r, Nat.sub_diag. }
  pose proof (entry_in_history g1 _ _ Hd) as Hin.
  intros w. split.
  - intros [-> | ->].
    + rewrite (resolve_duel_challenger g1 _ _ _ Hd Hin); [done|].
      unfold g1. cbn [Duel.challenger Game.heap Game.with_duel_history]. congruence.
    + rewrite (resolve_duel_challenged g1 _ _ _ Hd Hin); [done|..];
        unfold g1; cbn [Duel.challenger Duel.challenged Game.heap
                        Game.with_duel_history]; rewrite ?Hida, ?Hidb; congruence.
  - intros Hwa Hwb. apply (resolve_duel_invalid g1 _ _ _ Hd Hin);
      unfold g1; cbn [Duel.challenger Duel.challenged Game.heap
                      Game.with_duel_history]; rewrite ?Hida, ?Hidb; congruence.
Qed.

Lemma fresh_duel_resolvable_witness :
  ∃ g0, (Game.init [0; 1] 1 2 [alice; bob]).1 = Ok g0
    ∧ (Game.resolve_duel (Entry 0) 1
         (Game.challenge 1 2 (run g0 [SetPlayerExpertise 2 sci])).2).1 = Ok tt.
Proof.
  eexists. split; [reflexivity|].
  refine (proj1 (proj2 (proj2 (fresh_duel_resolvable [alice; bob] [0; 1] 1 2 _
                                  [SetPlayerExpertise 2 sci] 1 2 (Entry 0)
                                  eq_refl eq_refl)) 1%Z) _).
  by left.
Defined.

(** X16.  The three outcomes of [Game.resolve_duel] on a duel object, in
    any state.  The duel is looked for in the history by comparing fields,
    the two players field by field as well.  When no entry of the history
    is equal to it the call raises UnknownDuel; when one is and the winner
    id belongs to neither participant it raises InvalidWinner; both leave
    the game as it was.  When one is and the id is a participant's the call
    succeeds, and the winner is recorded on the object that was handed over:
    that object now reads the winner and is otherwise unchanged, every other
    duel object, in the history or not, is as it was, and so are the
    registry and the turn challenger.  An entry of the history is always
    equal to itself; a copy of an entry is accepted too, and then the entry
    stays unresolved. *)
Theorem resolve_duel_outcome (g : Game.t) (r : duel_ref) (w : Z) (d : Duel.t) :
  Game.get_duel g r = Some d →
  let a := Player.id (deref (Game.heap g) (Duel.challenger d)) in
  let b := Player.id (deref (Game.heap g) (Duel.challenged d)) in
  let member :=
    ∃ x, x ∈ Game.duel_history g
         ∧ Duel.fields (Game.heap g) x = Duel.fields (Game.heap g) d in
  (¬ member → Game.resolve_duel r w g = (Err UnknownDuel, g))
  ∧ (member → w ≠ a → w ≠ b → Game.resolve_duel r w g = (Err InvalidWinner, g))
  ∧ (member → w = a ∨ w = b →
     let g' := (Game.resolve_duel r w g).2 in
     (Game.resolve_duel r w g).1 = Ok tt
     ∧ (∃ d', Game.get_duel g' r = Some d'
              ∧ Duel.winner_id d' = Some w
              ∧ Duel.challenger d' = Duel.challenger d
              ∧ Duel.challenged d' = Duel.challenged d
              ∧ Duel.category d' = Duel.category d)
     ∧ (∀ r', r' ≠ r → Game.get_duel g' r' = Game.get_duel g r')
     ∧ Game.players g' = Game.players g
     ∧ Game.turn_challenger_id g' = Game.turn_challenger_id g)
  ∧ (∀ i, r = Entry i → member).
Proof.
  intros Hd a b member. split_and!.
  - intros Hno. apply (resolve_duel_unknown g r w d Hd).
    destruct (Game.in_history g d) eqn:Hin; [|done].
    destruct Hno. by apply in_history_twin.
  - intros Hin%in_history_twin Ha Hb. by apply (resolve_duel_invalid g r w d).
  - intros Hin%in_history_twin Hab. cbv zeta.
    assert (∃ W L, Game.resolve_duel r w g
                   = (Ok tt, Game.check_over (moved g r w d W L))) as (W & L & ->).
    { destruct (decide (w = a)) as [Ha|Ha].
      - do 2 eexists. by apply resolve_duel_challenger.
      - do 2 eexists. apply resolve_duel_challenged; [done..|]. fold b. tauto. }
    cbn [fst snd].
    assert (∀ r', Game.get_duel (Game.check_over (moved g r w d W L)) r'
                  = Game.get_duel (Game.set_duel r (Duel.with_winner_id (Some w) d) g) r')
      as Hget.
    { intros r'. rewrite <- (moved_get_duel g r w d W L r').
      destruct (check_over_fields (moved g r w d W L)) as (_ & _ & _ & Hh & _ & Ho).
      destruct r'; simpl; by rewrite ?Hh, ?Ho. }
    destruct (check_over_fields (moved g r w d W L)) as (-> & _ & _ & _ & -> & _).
    split_and!; try done.
    + exists (Duel.with_winner_id (Some w) d). split; [|done].
      rewrite Hget. by apply (get_set_duel g r d).
    + intros r' Hne. rewrite Hget. apply get_set_duel_ne. congruence.
  - intros i ->. exists d. split; [|done]. simpl in Hd. by eapply list_elem_of_lookup_2.
Qed.

(** The copy of the duel between Alice and Bob is accepted and gets the
    winner; the duel of the history stays without one. *)
Lemma resolve_duel_outcome_witness :
  ∃ g0 g g',
    (Game.init [0; 1] 1 2 [alice; bob; alice_copy; bob_copy]).1 = Ok g0
    ∧ g = run g0 [SetPlayerExpertise 2 sci; Challenge 1 2; NewDuel (Duel.mk 2 3 sci None)]
    ∧ g' = (Game.resolve_duel (Outside 0) 2 g).2
    ∧ (Game.resolve_duel (Outside 0) 2 g).1 = Ok tt
    ∧ (∃ d', Game.get_duel g' (Outside 0) = Some d' ∧ Duel.winner_id d' = Some 2%Z)
    ∧ Game.get_duel g' (Entry 0) = Some (Duel.mk 0 1 sci None).
Proof.
  do 3 eexists. split; [reflexivity|]. split; [reflexivity|]. split; [reflexivity|].
  match goal with
  | |- (Game.resolve_duel ?r ?w ?g).1 = _ ∧ _ =>
      pose proof (resolve_duel_outcome g r w (Duel.mk 2 3 sci None) eq_refl) as H
  end.
  cbv zeta in H. destruct H as (_ & _ & H & _).
  destruct H as (Hok & (d' & Hd' & Hw & _) & Hother & _).
  - exists (Duel.mk 0 1 sci None). split; [apply list_elem_of_here|reflexivity].
  - by right.
  - split; [exact Hok|]. split; [by exists d'|].
    rewrite Hother by done. reflexivity.
Defined.

(** ** Winning *)

(** X11.  Take players with pairwise distinct ids and calls in which every
    duel resolved is between players of the game.  When a call turns [over]
    from false to true, the winner recorded in [winner_id] owns the whole
    board: [get_player_at] returns that id for every cell of the board, and
    every registered player with another id is eliminated and owns
    nothing. *)
Theorem winner_owns_board (h : list Player.t) (ps : list nat) (nrows ncols : Z)
    (g0 : Game.t) (cs : list Call) (c : Call) :
  NoDup (ids h ps) →
  Forall (λ r, r < length h) ps →
  (Game.init ps nrows ncols h).1 = Ok g0 →
  own g0 (cs ++ [c]) = true →
  Game.over (run g0 cs) = false →
  Game.over (exec (run g0 cs) c) = true →
  let g' := exec (run g0 cs) c in
  ∃ k, Game.winner_id g' = Some k
       ∧ (∀ row col, (0 ≤ row < nrows ∧ 0 ≤ col < ncols)%Z →
            Board.get_player_at (Game.board g') row col = Ok (Some k))
       ∧ (∀ x, x ∈ dict_values (Game.players g') →
            Player.id (deref (Game.heap g') x) ≠ k →
            Player.eliminated (deref (Game.heap g') x) = true
            ∧ Player.positions (deref (Game.heap g') x) = []).
Proof.
  intros Hnd Hall Hg Hown Hf Ht g'.
  destruct (exec_over_rise _ c Hf Ht) as [_ (a & [Hal Hcap] & Hwin)].
  pose proof (run_part h ps nrows ncols g0 (cs ++ [c]) Hnd Hall Hg Hown)
    as (Hwf & _ & Hpart).
  pose proof (init_dims h ps nrows ncols g0 (cs ++ [c]) Hg) as [Hr Hc].
  rewrite run_snoc in Hwf, Hpart, Hr, Hc.
  fold g' in Hwf, Hpart, Hr, Hc, Hal, Hcap, Hwin.
  destruct (init_Ok_inv _ _ _ _ _ Hg) as (Hrp & Hcp & _).
  assert (a ∈ dict_values (Game.players g')) as Hav.
  { assert (a ∈ Game.alive_players g') as Hin by (rewrite Hal; apply list_elem_of_here).
    by apply list_elem_of_filter in Hin as [_ ?]. }
  assert (Player.positions (deref (Game.heap g') a) ≡ₚ Board.cells nrows ncols) as Hcells.
  { apply submseteq_length_Permutation.
    - apply NoDup_submseteq; [by apply part_positions_NoDup|].
      intros cell Hcell. pose proof (part_owned g' a cell Hpart (conj Hav Hcell)) as Hin.
      by rewrite Hr, Hc in Hin.
    - unfold Board.capacity in Hcap. rewrite Hr, Hc in Hcap.
      pose proof (length_cells nrows ncols Hrp Hcp). lia. }
  exists (Player.id (deref (Game.heap g') a)). split_and!.
  - done.
  - intros row col Hin. unfold Board.get_player_at.
    rewrite (part_grid g' Hpart a (row, col)); [done|].
    split; [done|]. rewrite Hcells. by apply elem_of_cells.
  - intros x Hx Hid.
    assert (x ≠ a) as Hne by (intros ->; congruence).
    split.
    + destruct (Player.eliminated (deref (Game.heap g') x)) eqn:Hel; [done|].
      assert (x ∈ Game.alive_players g') as Hin by by apply list_elem_of_filter.
      rewrite Hal in Hin. by apply list_elem_of_singleton in Hin.
    + destruct (Player.positions (deref (Game.heap g') x)) as [|cell rest] eqn:Hpos;
        [done|]. destruct Hne.
      apply (part_disjoint g' x a cell Hpart).
      * split; [done|]. rewrite Hpos. apply list_elem_of_here.
      * split; [done|]. rewrite Hcells.
        pose proof (part_owned g' x cell Hpart) as Hin. rewrite Hr, Hc in Hin.
        apply Hin. split; [done|]. rewrite Hpos. apply list_elem_of_here.
Qed.

Lemma winner_owns_board_witness :
  ∃ g0, (Game.init [0; 1] 1 2 [alice; bob]).1 = Ok g0
    ∧ ∃ k, Game.winner_id (exec (run g0 [SetPlayerExpertise 2 sci; Challenge 1 2])
                                (ResolveDuel (Entry 0) 2)) = Some k
           ∧ Board.get_player_at
               (Game.board (exec (run g0 [SetPlayerExpertise 2 sci; Challenge 1 2])
                                 (ResolveDuel (Entry 0) 2))) 0 0 = Ok (Some k).
Proof.
  eexists. split; [reflexivity|].
  match goal with
  | |- ∃ k, Game.winner_id (exec (run ?g ?cs) ?c) = _ ∧ _ =>
      destruct (winner_owns_board [alice; bob] [0; 1] 1 2 g cs c) as (k & Hk & Hgrid & _)
  end.
  - apply (bool_decide_unpack _). vm_compute. exact I.
  - apply (bool_decide_unpack _). vm_compute. exact I.
  - reflexivity.
  - reflexivity.
  - reflexivity.
  - reflexivity.
  - exists k. split; [exact Hk|]. apply Hgrid. lia.
Defined.

(** ** Declaring expertise *)

(** X12.  [set_player_expertise] for a registered id succeeds; it replaces
    the expertise of that player and nothing else: the player's other
    fields, the other players, the board, the history and the outcome of the
    game are unchanged.  Right afterwards any other registered player can
    challenge that player, and the duel is on the category just declared. *)
Theorem expertise_enables_challenge (h : list Player.t) (ps : list nat)
    (nrows ncols : Z) (g0 : Game.t) (cs : list Call) (b : Z) (x : nat)
    (cat : Category.t) :
  Forall (λ r, r < length h) ps →
  (Game.init ps nrows ncols h).1 = Ok g0 →
  dict_get (Game.players (run g0 cs)) b = Some x →
  let g := run g0 cs in
  let g1 := (Game.set_player_expertise b cat g).2 in
  (Game.set_player_expertise b cat g).1 = Ok tt
  ∧ deref (Game.heap g1) x = Player.with_expertise (Some cat) (deref (Game.heap g) x)
  ∧ (∀ y, y ≠ x → deref (Game.heap g1) y = deref (Game.heap g) y)
  ∧ Game.board g1 = Game.board g ∧ Game.duel_history g1 = Game.duel_history g
  ∧ Game.over g1 = Game.over g ∧ Game.winner_id g1 = Game.winner_id g
  ∧ (∀ a, a ≠ b → is_Some (dict_get (Game.players g) a) →
       ∃ r d, Game.challenge a b g1
              = (Ok r, Game.with_duel_history (Game.duel_history g1 ++ [d]) g1)
              ∧ Duel.category d = cat ∧ Duel.challenged d = x
              ∧ Duel.winner_id d = None).
Proof.
  intros Hall Hg Hx g g1.
  pose proof (run_live h ps nrows ncols g0 cs Hall Hg) as Hlive.
  fold g in Hlive, Hx. unfold g1, Game.set_player_expertise. rewrite Hx. cbn [fst snd].
  apply dict_get_Some_elem in Hx as Hin.
  destruct (live_lookup g x Hlive (elem_of_values g b x Hin)) as (p & Hp & _).
  assert (deref (alter (Player.choose_expertise cat) x (Game.heap g)) x
          = Player.with_expertise (Some cat) (deref (Game.heap g) x)) as Hnew.
  { unfold deref. by rewrite list_lookup_alter_eq, Hp. }
  split_and!; try done.
  - intros y Hy. unfold deref. cbn [Game.heap Game.with_heap].
    by rewrite list_lookup_alter_ne.
  - intros a Hab [ca Ha]. unfold Game.challenge. rewrite decide_False by done.
    cbn [Game.players Game.with_heap Game.heap]. rewrite Ha, Hx, Hnew.
    cbn [Player.expertise Player.with_expertise]. by do 2 eexists.
Qed.

Lemma expertise_enables_challenge_witness :
  ∃ g0, (Game.init [0; 1] 2 1 [alice; bob]).1 = Ok g0
    ∧ Player.expertise (deref (Game.heap (Game.set_player_expertise 2 hist g0).2) 1)
      = Some hist.
Proof.
  eexists. split; [reflexivity|].
  assert (Forall (λ r, r < length [alice; bob]) [0; 1]) as Hall
    by (apply (bool_decide_unpack _); vm_compute; exact I).
  pose proof (proj1 (proj2 (expertise_enables_challenge [alice; bob] [0; 1] 2 1 _ [] 2 1
                              hist Hall eq_refl eq_refl))) as H.
  exact (f_equal Player.expertise H).
Defined.

(** ** Games in which no eliminated player wins *)

Lemma alive_exec_fair (g : Game.t) (c : Call) (a : nat) :
  wf g → Game.alive_players g = [a] →
  fair_call g c = true → own_call g c = true →
  Game.alive_players (exec g c) = [a].
Proof.
  intros Hwf Hal Hfair Hown. rewrite <- Hal. destruct c as [i cat|x y|r w|k|d].
  - simpl. unfold Game.set_player_expertise.
    destruct (dict_get (Game.players g) i) as [r|]; [|done]. cbn [snd].
    apply alive_players_same; [done|]. intros r' _. cbn [Game.heap Game.with_heap].
    by apply (deref_alter_same Player.eliminated).
  - simpl. unfold Game.challenge. repeat (case_decide || case_match); done.
  - simpl. destruct (resolve_duel_cases g r w)
      as [[e ->]|(d & W & L & Hr & Hin & HWL & Hw & ->)]; [done|]. cbn [snd].
    destruct (wf_own g r d Hwf Hown Hr) as [Hca Hcb].
    destruct (wf_accepted g d Hwf Hin) as (ra & rb & _ & _ & _ & _ & _ & Hne).
    assert (W ≠ L ∧ W ∈ dict_values (Game.players g) ∧ L ∈ dict_values (Game.players g))
      as (HneWL & HWv & HLv).
    { destruct HWL as [[-> ->]|[-> ->]]; split_and!; done. }
    pose proof (fair_winner_alive g r w W Hwf HWv Hw Hfair) as HaliveW.
    assert (∀ x, x ∈ dict_values (Game.players g) →
                 Player.eliminated (deref (Game.heap g) x) = false → x = a) as Honly.
    { intros x Hx Hel.
      assert (x ∈ Game.alive_players g) as Hxa by by apply list_elem_of_filter.
      rewrite Hal in Hxa. by apply list_elem_of_singleton in Hxa. }
    assert (Player.eliminated (deref (Game.heap g) L) = true) as HdeadL.
    { destruct (Player.eliminated (deref (Game.heap g) L)) eqn:Hel; [done|].
      destruct HneWL. by rewrite (Honly W), (Honly L). }
    apply alive_players_same.
    + by destruct (check_over_fields (moved g r w d W L)) as (-> & _).
    + intros x _. destruct (check_over_fields (moved g r w d W L)) as (_ & _ & -> & _).
      destruct (moved_deref g r w d W L x) as [(-> & Hel & _)|[(_ & _ & Heq)|Heq]].
      * by rewrite Hel, HdeadL.
      * by rewrite Heq.
      * by rewrite Heq.
  - simpl. unfold Game.start_turn.
    destruct (Game.alive_players g) eqn:Heq; cbn [snd]; exact Heq.
  - done.
Qed.

(** X15.  Take players with pairwise distinct ids, none eliminated, not a
    single player alone, and calls in which no duel is resolved for a player
    already eliminated and every duel resolved is between players of the
    game.  Then the game is over exactly when one player is left alive; that
    player owns as many cells as the board has and its id is
    [winner_id]. *)
Theorem fair_game_over_iff (h : list Player.t) (ps : list nat) (nrows ncols : Z)
    (g0 : Game.t) (cs : list Call) :
  NoDup (ids h ps) →
  Forall (λ r, r < length h) ps →
  Forall (λ r, Player.eliminated (deref h r) = false) ps →
  length ps ≠ 1 →
  (Game.init ps nrows ncols h).1 = Ok g0 →
  fair g0 cs = true →
  own g0 cs = true →
  let g := run g0 cs in
  (Game.over g = true ↔ ∃ a, Game.alive_players g = [a])
  ∧ (∀ a, Game.alive_players g = [a] →
       sole_owner g a
       ∧ Game.winner_id g = Some (Player.id (deref (Game.heap g) a))).
Proof.
  intros Hnd Hall Hstart Hone Hg Hfair Hown g.
  set (I := λ g : Game.t, wf g ∧ live g ∧ part g ∧ cleared g ∧ over_complete g
    ∧ (Game.over g = true → ∃ a, Game.alive_players g = [a])).
  assert (I g) as (Hwf & Hlive & Hpart & Hcl & Hoc & Hover).
  { apply (run_fair_own_ind I); [| |done|done].
    - split_and!; [by eapply init_wf|by apply (run_live h ps nrows ncols g0 [])
                   |by eapply init_part|by eapply init_cleared
                   |by eapply init_over_complete|].
      by pose proof (init_game _ _ _ _ _ Hg) as (_ & _ & _ & _ & _ & _ & -> & _).
    - intros g1 c (Hwf & Hlive & Hpart & Hcl & Hoc & Hover) Hf Ho.
      pose proof (exec_step g1 c) as Hstep.
      split_and!; [by eapply wf_step|by apply exec_live|by apply part_exec
                   |by apply cleared_exec|by eapply over_complete_step|].
      intros Ht. destruct (Game.over g1) eqn:Hov.
      + destruct (Hover eq_refl) as [a Ha]. exists a. by apply alive_exec_fair.
      + destruct (exec_over_rise g1 c Hov Ht) as [_ (a & [Ha _] & _)]. by exists a. }
  assert (∀ a, Game.alive_players g = [a] → sole_owner g a) as Hsole.
  { intros a Ha. split; [done|].
    destruct (init_dims h ps nrows ncols g0 cs Hg) as [Hr Hc]. fold g in Hr, Hc.
    destruct (init_Ok_inv _ _ _ _ _ Hg) as (Hrp & Hcp & _).
    assert (a ∈ dict_values (Game.players g)) as Hav.
    { assert (a ∈ Game.alive_players g) as Hin by (rewrite Ha; apply list_elem_of_here).
      by apply list_elem_of_filter in Hin as [_ ?]. }
    unfold Board.capacity. rewrite Hr, Hc.
    rewrite <- (length_cells nrows ncols Hrp Hcp). f_equal.
    apply Permutation_length, NoDup_Permutation.
    - by apply part_positions_NoDup.
    - apply NoDup_cells.
    - intros [row col]. split.
      + intros Hin. pose proof (part_owned g a _ Hpart (conj Hav Hin)) as Hcell.
        by rewrite Hr, Hc in Hcell.
      + intros Hcell. apply elem_of_cells in Hcell.
        apply (part_cover nrows ncols g) in Hcell as (x & Hx & Hpos); [|done..].
        destruct (Player.eliminated (deref (Game.heap g) x)) eqn:Hel.
        * rewrite (Hcl x Hx Hel) in Hpos. by apply elem_of_nil in Hpos.
        * assert (x ∈ Game.alive_players g) as Hxa by by apply list_elem_of_filter.
          rewrite Ha in Hxa. by apply list_elem_of_singleton in Hxa as ->. }
  split.
  - split; [done|]. intros [a Ha]. by destruct (Hoc a (Hsole a Ha)).
  - intros a Ha. split; [by apply Hsole|]. by destruct (Hoc a (Hsole a Ha)).
Qed.

Lemma fair_game_over_iff_witness :
  ∃ g0, (Game.init [0; 1; 2] 1 3 [alice; bob; carol]).1 = Ok g0
    ∧ (Game.over (run g0 first_duel) = true
       ↔ ∃ a, Game.alive_players (run g0 first_duel) = [a]).
Proof.
  eexists. split; [reflexivity|].
  refine (proj1 (fair_game_over_iff [alice; bob; carol] [0; 1; 2] 1 3 _ first_duel
                   _ _ _ _ eq_refl _ _)).
  - apply (bool_decide_unpack _). vm_compute. exact I.
  - apply (bool_decide_unpack _). vm_compute. exact I.
  - by repeat constructor.
  - simpl. lia.
  - vm_compute. reflexivity.
  - vm_compute. reflexivity.
Defined.

(** ** The colours of the players *)

Lemma string_length_append (s t : string) :
  String.length (s +:+ t) = String.length s + String.length t.
Proof. induction s as [|a s IH]; simpl; [done|]. by rewrite IH. Qed.

Lemma string_append_inj_r (t s1 s2 : string) : s1 +:+ t = s2 +:+ t → s1 = s2.
Proof.
  revert s2. induction s1 as [|a s1 IH]; intros [|b s2] Heq; simpl in Heq.
  - done.
  - apply (f_equal String.length) in Heq.
    rewrite ?string_length_append in Heq. simpl in Heq. lia.
  - apply (f_equal String.length) in Heq. simpl in Heq.
    rewrite ?string_length_append in Heq. simpl in Heq. lia.
  - injection Heq as -> Heq. f_equal. by apply IH.
Qed.

Lemma hue_eq (p q : Z) :
  ((p * 73) mod 360 = (q * 73) mod 360 ↔ (p - q) mod 360 = 0)%Z.
Proof.
  split.
  - intros Heq. apply Z.mod_divide; [done|].
    apply (Z.gauss 360 73); [|reflexivity].
    apply Z.mod_divide; [done|].
    replace (73 * (p - q))%Z with (p * 73 - q * 73)%Z by lia.
    rewrite Zminus_mod, Heq, Z.sub_diag. done.
  - intros Hmod. apply Z.mod_divide in Hmod as [k Hk]; [|done].
    replace p with (q + k * 360)%Z by lia.
    replace ((q + k * 360) * 73)%Z with (q * 73 + (k * 73) * 360)%Z by lia.
    by rewrite Z.mod_add.
Qed.

(** X13.  [_color_for_id] always yields the text colour #111 and a
    background and a border that share a hue between 0 and 359, also for
    negative ids.  Two ids get the same background, and then the same three
    colours, exactly when they are congruent modulo 360; ids less than 360
    apart, such as the ids 1, 2, ... handed out when a game is created, get
    different backgrounds. *)
Theorem color_for_id_distinct (p q : Z) :
  (∃ hue, (0 ≤ hue < 360)%Z
          ∧ Web._color_for_id p
            = Web.mk_colors ("hsl(" +:+ pretty hue +:+ ",70%,85%)")
                            ("hsl(" +:+ pretty hue +:+ ",70%,60%)") "#111")
  ∧ (Web.bg (Web._color_for_id p) = Web.bg (Web._color_for_id q)
     ↔ ((p - q) mod 360 = 0)%Z)
  ∧ (Web._color_for_id p = Web._color_for_id q ↔ ((p - q) mod 360 = 0)%Z)
  ∧ ((0 < q - p < 360)%Z →
     Web.bg (Web._color_for_id p) ≠ Web.bg (Web._color_for_id q)).
Proof.
  assert (Web.bg (Web._color_for_id p) = Web.bg (Web._color_for_id q)
          ↔ ((p - q) mod 360 = 0)%Z) as Hbg.
  { rewrite <- hue_eq. unfold Web._color_for_id. cbn [Web.bg]. split.
    - intros Heq. apply (inj (String.append "hsl(")) in Heq.
      apply string_append_inj_r in Heq. by apply (inj pretty) in Heq.
    - by intros ->. }
  split_and!.
  - exists ((p * 73) mod 360)%Z. split; [by apply Z.mod_pos_bound|done].
  - done.
  - split.
    + intros Heq. apply Hbg. by rewrite Heq.
    + rewrite <- hue_eq. unfold Web._color_for_id. by intros ->.
  - intros Hpq Heq. apply Hbg in Heq.
    apply Z.mod_divide in Heq as [k Hk]; [|done]. lia.
Qed.

Lemma color_for_id_distinct_witness :
  Web._color_for_id 1 = Web.mk_colors "hsl(73,70%,85%)" "hsl(73,70%,60%)" "#111"
  ∧ Web.bg (Web._color_for_id 1) ≠ Web.bg (Web._color_for_id 360).
Proof.
  split; [reflexivity|].
  apply (proj2 (proj2 (proj2 (color_for_id_distinct 1 360)))). lia.
Defined.
